(** * Sia renter: the download engine (package renter, download.go)

    A shallow embedding of [Download], its [Write] method, [downloadPiece],
    [newDownload], [Renter.Download] and [Renter.DownloadQueue], together
    with the properties of the retrieval loop.

    Conventions.
    - A Go [uint64] is an [N] with the wrap-around at 2^64 written out
      ([wrap64]); a Go [int64] (a [time.Duration], the bound of an
      [io.LimitReader]) is a [Z] ([toInt64]).
    - A Go [error] is an [option error]: [None] is [nil].
    - The operating system and the network are the environment. The disk
      is a finite map from paths to contents; what the environment decides
      (whether [os.Create] fails, how a host behaves during one attempt, how
      many bytes a write to the destination gets through, the random byte of
      the backoff) is read from an [Env] record.
    - The functions return, besides the new state, the list of events they
      emit. Events are observations only: the value just stored in the
      [received] counter, the start and the end of a piece attempt, a sleep,
      [Close] and [Remove]. *)

From Stdlib Require Import ZArith NArith Strings.Byte Lia.
From stdpp Require Import base option list gmap strings.

(** ** Machine integers *)

Definition wrap64 (x : N) : N := (x mod 2 ^ 64)%N.

(** The conversion [int64(x)] of a [uint64]. *)
Definition toInt64 (x : N) : Z :=
  let z := (Z.of_N x mod 2 ^ 64)%Z in
  if (z <? 2 ^ 63)%Z then z else (z - 2 ^ 64)%Z.

(** An [int64] product, as [time.Duration] arithmetic computes it. *)
Definition wrapInt64 (z : Z) : Z :=
  ((z + 2 ^ 63) mod 2 ^ 64 - 2 ^ 63)%Z.

(** ** Errors *)

Definition error := string.

(** ** The crypto package

    [crypto.Hash], the encryption key of a piece, [crypto.ReaderMerkleRoot]
    and the key's [NewWriter] live in the crypto package, outside this
    file. They are taken as an interface. *)

Class Crypto := {
  (** [crypto.Hash]: a fixed-size array, compared with [!=]. *)
  Hash : Type;
  Hash_eq_dec :: EqDecision Hash;
  (** The type of [filePiece.EncryptionKey]. *)
  CipherKey : Type;
  (** The Merkle root of a byte string: what [crypto.ReaderMerkleRoot]
      returns for a reader that delivers these bytes and then [io.EOF]. *)
  MerkleRoot : list byte → Hash;
  (** What the writer made by [key.NewWriter(w)] hands to [w] for the
      buffer [b] written at stream offset [off]. *)
  KeyStream : CipherKey → nat → list byte → list byte;
  (** A stream cipher: the output has the length of the input. *)
  KeyStream_length : ∀ k off b, length (KeyStream k off b) = length b;
}.

(** ** The operating system: disk and file handles *)

Abbreviation Disk := (gmap string (list byte)).

(** An [os.File] handle: the path it was opened on, the write offset, and
    whether it is still open. *)
Record File := mkFile {
  f_name : string;
  f_pos : nat;
  f_open : bool;
}.

(** [splice c pos b]: the content [c] after writing [b] at offset [pos]
    (a write past the end fills the gap with zero bytes). *)
Definition splice (c : list byte) (pos : nat) (b : list byte) : list byte :=
  take pos c ++ replicate (pos - length c) Byte.x00 ++ b
    ++ drop (pos + length b) c.

(** The environment's verdict on one write: [None] lets the whole buffer
    through; [Some (m, e)] lets at most [m] bytes through and reports [e]. *)
Definition WriteFault := option (nat * error).

Definition written (o : WriteFault) (b : list byte) : nat :=
  match o with
  | None => length b
  | Some (m, _) => m `min` length b
  end.

Definition write_err (o : WriteFault) : option error :=
  match o with
  | None => None
  | Some (_, e) => Some e
  end.

(** [os.Create]: creates or truncates the file; the handle starts at
    offset 0. On failure the disk is untouched. *)
Definition os_Create (path : string) (fail : option error) (dk : Disk)
  : Disk * (error + File) :=
  match fail with
  | Some e => (dk, inl e)
  | None => (<[path := []]> dk, inr (mkFile path 0 true))
  end.

(** [os.File.Write]: writes at the handle's offset and advances it by
    the number of bytes written. *)
Definition File_Write (f : File) (dk : Disk) (b : list byte) (o : WriteFault)
  : File * Disk * nat * option error :=
  let n := written o b in
  let dk' :=
    match dk !! f_name f with
    | Some c => <[f_name f := splice c (f_pos f) (take n b)]> dk
    | None => dk
    end in
  (mkFile (f_name f) (f_pos f + n) (f_open f), dk', n, write_err o).

(** [f.Seek(0, 0)]. *)
Definition File_Seek0 (f : File) : File := mkFile (f_name f) 0 (f_open f).

(** [f.Close()]. *)
Definition File_Close (f : File) : File := mkFile (f_name f) (f_pos f) false.

(** [os.Remove]. *)
Definition os_Remove (path : string) (dk : Disk) : Disk := delete path dk.

(** ** The network: what a host does during one attempt *)

Record HostScript := mkHost {
  (** [net.DialTimeout]. *)
  dial : option error;
  (** [encoding.WriteObject] of the command tag, then of the contract id. *)
  send_tag : option error;
  send_id : option error;
  (** The successive reads of the connection, and how the stream ends:
      [None] is [io.EOF], [Some e] a read error. *)
  stream : list (list byte);
  stream_end : option error;
  (** The fate of the [k]-th write to the destination file. *)
  disk_write : nat → WriteFault;
}.

(** ** Events *)

Inductive Event :=
| EvBegin (i j : nat) (rcv : N) (pos : nat)
    (* piece [j] of pass [i] is about to be attempted; the counter and the
       write offset at that instant *)
| EvReceived (v : N)
    (* [Write] has just stored [v] in the counter *)
| EvAbandon (i j : nat) (rcv : N) (pos : nat)
    (* the attempt failed and the reset is done; counter and offset now *)
| EvDone (i j : nat)
| EvSleep (ns : Z)
| EvClose
| EvRemove (path : string).

Section Renter.
Context `{Crypto}.

(** ** Data model *)

(** The two fields of [types.FileContract] that the download reads. *)
Record FileContract := mkContract {
  FileSize : N;
  FileMerkleRoot : Hash;
}.

Record filePiece := mkPiece {
  Active : bool;
  HostIP : string;
  ContractID : list byte;
  Contract : FileContract;
  EncryptionKey : CipherKey;
}.

Record file := mkFileEntry {
  Name : string;
  Pieces : list filePiece;
}.

Definition downloadAttempts : nat := 5.

Record Download := mkDownload {
  received : N;
  startTime : Z;
  complete : bool;
  filesize : N;
  destination : string;
  nickname : string;
  pieces : list filePiece;
  d_file : File;
}.

Definition set_received (v : N) (d : Download) : Download :=
  mkDownload v (startTime d) (complete d) (filesize d) (destination d)
    (nickname d) (pieces d) (d_file d).

Definition set_complete (v : bool) (d : Download) : Download :=
  mkDownload (received d) (startTime d) v (filesize d) (destination d)
    (nickname d) (pieces d) (d_file d).

Definition set_file (v : File) (d : Download) : Download :=
  mkDownload (received d) (startTime d) (complete d) (filesize d)
    (destination d) (nickname d) (pieces d) v.

(** The accessors of [modules.DownloadInfo]. *)
Definition Download_StartTime (d : Download) : Z := startTime d.
Definition Download_Complete (d : Download) : bool := complete d.
Definition Download_Filesize (d : Download) : N := filesize d.
Definition Download_Received (d : Download) : N := received d.
Definition Download_Destination (d : Download) : string := destination d.
Definition Download_Nickname (d : Download) : string := nickname d.

(** ** [Download.Write]

<<
    n, err := d.file.Write(b)
    atomic.AddUint64(&d.received, uint64(n))
    return n, err
>> *)
Definition Download_Write (d : Download) (dk : Disk) (b : list byte)
    (o : WriteFault) : Download * Disk * list Event * nat * option error :=
  let '(f', dk', n, err) := File_Write (d_file d) dk b o in
  let rcv := wrap64 (received d + N.of_nat n) in
  (set_received rcv (set_file f' d), dk', [EvReceived rcv], n, err).

(** Modelled from the spec: the [Write] of the writer returned by
    [piece.EncryptionKey.NewWriter(d)] (crypto package): the buffer is
    decrypted at the current stream offset and handed to [d.Write], whose
    results are returned. *)
Definition keyWriter_Write (key : CipherKey) (off : nat) (d : Download)
    (dk : Disk) (b : list byte) (o : WriteFault)
  : Download * Disk * list Event * nat * option error :=
  Download_Write d dk (KeyStream key off b) o.

(** ** [downloadPiece] *)

(** Modelled from the spec: [crypto.ReaderMerkleRoot] (crypto package)
    reads its reader until [io.EOF] and gives up on the first other
    error. [readTee] is that loop draining
    [io.TeeReader(io.LimitReader(conn, N), key.NewWriter(d))]:
    - the limited reader answers [io.EOF] once [N <= 0] and never hands
      out more than [N] bytes;
    - the tee writes every non-empty read to the key writer before it
      returns it, and a write error becomes the read's error; what the
      tee returns to its reader are the bytes read from the connection.
    The result is the error, or the bytes that were read (of which the
    caller takes the Merkle root). [acc] holds the bytes read so far,
    [off] their number, [k] the number of writes so far. *)
Fixpoint readTee (key : CipherKey) (faults : nat → WriteFault)
    (chunks : list (list byte)) (fin : option error) (N : Z) (off k : nat)
    (acc : list byte) (d : Download) (dk : Disk)
  : Download * Disk * list Event * (error + list byte) :=
  if (N <=? 0)%Z then (d, dk, [], inr acc)
  else
    match chunks with
    | [] => (d, dk, [], match fin with Some e => inl e | None => inr acc end)
    | c :: rest =>
        let p := take (Z.to_nat N) c in
        match p with
        | [] => readTee key faults rest fin N off k acc d dk
        | _ =>
            let '(d1, dk1, ev1, _, err) :=
              keyWriter_Write key off d dk p (faults k) in
            match err with
            | Some e => (d1, dk1, ev1, inl e)
            | None =>
                let '(d2, dk2, ev2, r) :=
                  readTee key faults rest fin (N - Z.of_nat (length p))
                    (off + length p) (S k) (acc ++ p) d1 dk1 in
                (d2, dk2, ev1 ++ ev2, r)
            end
        end
    end.

Definition downloadPiece (d : Download) (dk : Disk) (piece : filePiece)
    (h : HostScript) : Download * Disk * list Event * option error :=
  match dial h with
  | Some e => (d, dk, [], Some e)
  | None =>
  match send_tag h with
  | Some e => (d, dk, [], Some e)
  | None =>
  match send_id h with
  | Some e => (d, dk, [], Some e)
  | None =>
      let '(d', dk', ev, r) :=
        readTee (EncryptionKey piece) (disk_write h) (stream h) (stream_end h)
          (toInt64 (FileSize (Contract piece))) 0 0 [] d dk in
      match r with
      | inl e => (d', dk', ev, Some e)
      | inr bytes =>
          if decide (MerkleRoot bytes = FileMerkleRoot (Contract piece))
          then (d', dk', ev, None)
          else (d', dk', ev, Some "host provided a file that's invalid"%string)
      end
  end end end.

(** ** [newDownload] *)

(** What the environment decides during one call of [Renter.Download]. *)
Record Env := mkEnv {
  (** [time.Now()]. *)
  now : Z;
  (** [os.Create]: [Some e] when the destination cannot be created. *)
  create_fail : option error;
  (** The host's behaviour when piece [j] is attempted in pass [i]. *)
  host : nat → nat → HostScript;
  (** The byte that [rand.Read] leaves in [randSource] after pass [i]. *)
  rand_byte : nat → byte;
}.

(** A call that indexes a slice either returns or panics. *)
Inductive NewResult :=
| NewOk (d : Download)
| NewErr (e : error)
| NewPanic.

(** The filter loop: [activePieces = append(activePieces, piece)] for
    every active piece, in order. *)
Definition activePieces (ps : list filePiece) : list filePiece :=
  foldl (λ acc piece, if Active piece then acc ++ [piece] else acc) [] ps.

Definition newDownload (f : file) (dest : string) (env : Env) (dk : Disk)
  : Disk * NewResult :=
  match os_Create dest (create_fail env) dk with
  | (dk', inl e) => (dk', NewErr e)
  | (dk', inr handle) =>
      let act := activePieces (Pieces f) in
      if decide (length act = 0) then (dk', NewErr "no active pieces"%string)
      else
        match Pieces f !! 0 with
        | None => (dk', NewPanic) (* index out of range *)
        | Some p0 =>
            (dk', NewOk (mkDownload 0 (now env) false (FileSize (Contract p0))
                           dest (Name f) act handle))
        end
  end.

(** ** [Renter.Download] *)

(** A [*Download] is an index into the store of allocated sessions. *)
Record Renter := mkRenter {
  (** Whether the lock [r.mu] is held. *)
  mu : bool;
  files : gmap string file;
  downloadQueue : list nat;
}.

Inductive Result :=
| Returned (e : option error)
| Panicked.

Definition second : Z := 1000000000.

Definition byteZ (b : byte) : Z := Z.of_N (Byte.to_N b).

(** [time.Second * time.Duration(i*i) * time.Duration(randSource[0])]. *)
Definition backoff (i : nat) (b : byte) : Z :=
  wrapInt64 (wrapInt64 (second * Z.of_nat (i * i)) * byteZ b).

(** The inner loop, [for _, piece := range d.pieces], from piece [j] on.
    The boolean tells whether the function has returned (a piece was
    retrieved). *)
Fixpoint tryPieces (env : Env) (i j : nat) (ps : list filePiece)
    (d : Download) (dk : Disk) : Download * Disk * list Event * bool :=
  match ps with
  | [] => (d, dk, [], false)
  | piece :: rest =>
      let ev0 := [EvBegin i j (received d) (f_pos (d_file d))] in
      let '(d1, dk1, ev1, downloadErr) :=
        downloadPiece d dk piece (host env i j) in
      match downloadErr with
      | None =>
          let d2 := set_complete true d1 in
          let d3 := set_file (File_Close (d_file d2)) d2 in
          (d3, dk1, ev0 ++ ev1 ++ [EvDone i j; EvClose], true)
      | Some _ =>
          let d2 := set_file (File_Seek0 (d_file d1)) d1 in
          let d3 := set_received 0 d2 in
          let ev2 := [EvAbandon i j (received d3) (f_pos (d_file d3))] in
          let '(d4, dk4, ev4, ok) := tryPieces env i (S j) rest d3 dk1 in
          (d4, dk4, ev0 ++ ev1 ++ ev2 ++ ev4, ok)
      end
  end.

(** The outer loop, [for i := ...; i < downloadAttempts; i++], with
    [n] passes left. *)
Fixpoint passes (n i : nat) (env : Env) (d : Download) (dk : Disk)
  : Download * Disk * list Event * bool :=
  match n with
  | 0 => (d, dk, [], false)
  | S n' =>
      let '(d1, dk1, ev1, ok) := tryPieces env i 0 (pieces d) d dk in
      if ok then (d1, dk1, ev1, true)
      else
        let '(d2, dk2, ev2, ok2) := passes n' (S i) env d1 dk1 in
        (d2, dk2, ev1 ++ [EvSleep (backoff i (rand_byte env i))] ++ ev2, ok2)
  end.

(** [Renter.Download]. The session is allocated at the next free index of
    the store [st]; the loop is its only writer, so its value is threaded
    through the loop and is the content of that cell when the call
    returns. *)
Definition Renter_Download (r : Renter) (st : list Download) (dk : Disk)
    (env : Env) (nick dest : string)
  : Renter * list Download * Disk * list Event * Result :=
  let r := mkRenter true (files r) (downloadQueue r) in
  match files r !! nick with
  | None => (r, st, dk, [], Returned (Some "no file of that nickname"%string))
  | Some f =>
      match newDownload f dest env dk with
      | (dk, NewPanic) => (r, st, dk, [], Panicked)
      | (dk, NewErr e) => (r, st, dk, [], Returned (Some e))
      | (dk, NewOk d) =>
          let r := mkRenter (mu r) (files r) (downloadQueue r ++ [length st]) in
          let r := mkRenter false (files r) (downloadQueue r) in
          let '(d, dk, ev, ok) := passes downloadAttempts 0 env d dk in
          if ok then (r, st ++ [d], dk, ev, Returned None)
          else
            let d := set_file (File_Close (d_file d)) d in
            let dk := os_Remove dest dk in
            (r, st ++ [d], dk, ev ++ [EvClose; EvRemove dest],
             Returned (Some "could not download any file pieces"%string))
      end
  end.

(** ** [Renter.DownloadQueue]

    [downloads] starts as [len] nil entries; entry [i] is then set to
    [r.downloadQueue[len-i-1]]. [None] as a result is an index out of
    range. *)
Definition Renter_DownloadQueue (r : Renter) : option (list (option nat)) :=
  let q := downloadQueue r in
  foldl
    (λ acc i,
       downloads ← acc;
       x ← q !! (length q - i - 1);
       Some (<[i := Some x]> downloads))
    (Some (replicate (length q) None))
    (seq 0 (length q)).



End Renter.

(** ** Reading a trace *)

(** The successive values of the [received] counter. *)
Definition counter_values (tr : list Event) : list N :=
  omap (λ e, match e with
             | EvReceived v => Some v
             | EvAbandon _ _ v _ => Some v
             | _ => None
             end) tr.

(** The attempts that were started, as (pass, piece index). *)
Definition attempts (tr : list Event) : list (nat * nat) :=
  omap (λ e, match e with EvBegin i j _ _ => Some (i, j) | _ => None end) tr.

Definition sleeps (tr : list Event) : list Z :=
  omap (λ e, match e with EvSleep ns => Some ns | _ => None end) tr.

Definition abandoned (tr : list Event) : list (nat * nat) :=
  omap (λ e, match e with EvAbandon i j _ _ => Some (i, j) | _ => None end) tr.

(** The counter's value after the trace [tr], when it was [v0] before. *)
Definition last_value (v0 : N) (tr : list Event) : N :=
  foldl (λ v e, match e with
                | EvReceived v' => v'
                | EvAbandon _ _ v' _ => v'
                | _ => v
                end) v0 tr.

Definition is_received (e : Event) : Prop :=
  match e with EvReceived _ => True | _ => False end.

(** [climbs lo hi tr]: [tr] holds counter updates only, each at least the
    value before it (starting from [lo]) and at most [hi]. *)
Fixpoint climbs (lo : N) (hi : Z) (tr : list Event) : Prop :=
  match tr with
  | [] => True
  | EvReceived v :: rest => (lo ≤ v)%N ∧ (Z.of_N v ≤ hi)%Z ∧ climbs v hi rest
  | _ :: _ => False
  end.

(** [counter_ok v0 hi tr]: along [tr], every value that [Write] stores is
    at least the value before it and at most [hi], and every abandon
    leaves the counter at zero. *)
Fixpoint counter_ok (v0 hi : N) (tr : list Event) : Prop :=
  match tr with
  | [] => True
  | EvReceived v :: rest => (v0 ≤ v)%N ∧ (v ≤ hi)%N ∧ counter_ok v hi rest
  | EvAbandon _ _ v _ :: rest => v = 0%N ∧ counter_ok 0 hi rest
  | _ :: rest => counter_ok v0 hi rest
  end.

Definition is_sleep (e : Event) : Prop :=
  match e with EvSleep _ => True | _ => False end.

(** What an event of passes [lo .. hi-1] looks like inside the trace [tr]:
    attempts begin and are abandoned with the counter and the offset at
    zero, an abandoned attempt has begun, and the loops remove nothing. *)
Definition loop_event (lo hi : nat) (tr : list Event) (e : Event) : Prop :=
  match e with
  | EvBegin a b rcv pos => lo ≤ a < hi ∧ rcv = 0%N ∧ pos = 0
  | EvAbandon a b rcv pos =>
      lo ≤ a < hi ∧ rcv = 0%N ∧ pos = 0 ∧ EvBegin a b 0 0 ∈ tr
  | EvRemove _ => False
  | _ => True
  end.

(** All the attempts of passes [i0 .. i0+k-1] over [n] pieces, in order. *)
Definition pass_grid (i0 k n : nat) : list (nat * nat) :=
  i ← seq i0 k; pair i <$> seq 0 n.

Section Outcomes.
Context `{Crypto}.

(** The fields that only [newDownload] and the end of [Renter.Download]
    set. *)
Definition same_session (d d' : Download) : Prop :=
  startTime d' = startTime d ∧ complete d' = complete d ∧
  filesize d' = filesize d ∧ destination d' = destination d ∧
  nickname d' = nickname d ∧ pieces d' = pieces d ∧
  f_name (d_file d') = f_name (d_file d) ∧
  f_open (d_file d') = f_open (d_file d).

(** The error of a piece attempt does not depend on the session it writes
    to (see [downloadPiece_err_indep]); an attempt fails, or succeeds,
    whatever that session is. *)
Definition attempt_fails (piece : filePiece) (h : HostScript) : Prop :=
  ∀ d dk, (downloadPiece d dk piece h).2 ≠ None.

Definition attempt_succeeds (piece : filePiece) (h : HostScript) : Prop :=
  ∀ d dk, (downloadPiece d dk piece h).2 = None.

(** The bytes that the bounded reader delivers from the connection when
    nothing fails: the start of the host's stream, up to the declared
    size. *)
Definition wire_bytes (piece : filePiece) (h : HostScript) : list byte :=
  take (Z.to_nat (toInt64 (FileSize (Contract piece)))) (concat (stream h)).

(** The session once a piece has been retrieved. *)
Definition finished (d : Download) : Download :=
  set_file (File_Close (d_file d)) (set_complete true d).

End Outcomes.

(** ** What a successful attempt leaves behind *)

Section Plain.
Context `{Crypto}.

(** The bytes the key's writer hands to [Download.Write] while the bounded
    tee is drained without error: the decryption of each read, at the
    offset of that read. *)
Fixpoint plain_stream (key : CipherKey) (chunks : list (list byte)) (N : Z)
    (off : nat) : list byte :=
  if (N <=? 0)%Z then []
  else
    match chunks with
    | [] => []
    | c :: rest =>
        let p := take (Z.to_nat N) c in
        KeyStream key off p
          ++ plain_stream key rest (N - Z.of_nat (length p)) (off + length p)
    end.

Definition piece_plain (piece : filePiece) (h : HostScript) : list byte :=
  plain_stream (EncryptionKey piece) (stream h)
    (toInt64 (FileSize (Contract piece))) 0.

(** What holds after an attempt that returned nil, started at offset 0
    with the counter at 0 on a destination holding [c]. *)
Definition delivered (piece : filePiece) (h : HostScript)
    (c : list byte) (d' : Download) (dk' : Disk) : Prop :=
  let plain := piece_plain piece h in
  MerkleRoot (wire_bytes piece h) = FileMerkleRoot (Contract piece) ∧
  length plain = length (wire_bytes piece h) ∧
  dk' !! f_name (d_file d') = Some (plain ++ drop (length plain) c) ∧
  f_pos (d_file d') = length plain ∧
  received d' = N.of_nat (length plain).

(** Whether a call of [Renter.Download] gets a session from
    [newDownload]. *)
Definition constructs (r : Renter) (dk : Disk) (env : Env)
    (nick dest : string) : bool :=
  match files r !! nick with
  | Some f =>
      match (newDownload f dest env dk).2 with
      | NewOk _ => true
      | _ => false
      end
  | None => false
  end.

(** The pointers of the queue are distinct and allocated. *)
Definition queue_wf (r : Renter) (st : list Download) : Prop :=
  NoDup (downloadQueue r) ∧ Forall (λ p, p < length st) (downloadQueue r).

End Plain.

(** ** Package api: the two handlers of the download (api/renter.go) *)

Record DownloadInfo := mkInfo {
  StartTime : Z;
  Complete : bool;
  Filesize : N;
  Received : N;
  Destination : string;
  Nickname : string;
}.

(** [req.FormValue(key)]: the empty string when the form has no such
    key. *)
Definition FormValue (req : gmap string string) (key : string) : string :=
  default ""%string (req !! key).

(** [writeError], [writeSuccess] and [writeJSON] are defined elsewhere in
    package api; a response records which of them the handler calls, and
    with what. *)
Inductive Response :=
| writeError (msg : string) (status : nat)
| writeSuccess
| writeJSON (v : list DownloadInfo).

Definition StatusInternalServerError : nat := 500.

Section Api.
Context `{Crypto}.

(** The [DownloadInfo] literal built from the accessors of a session. *)
Definition info (dl : Download) : DownloadInfo :=
  mkInfo (Download_StartTime dl) (Download_Complete dl) (Download_Filesize dl)
    (Download_Received dl) (Download_Destination dl) (Download_Nickname dl).

(** [renterFilesDownloadHandler]. [None] as a response is a panic. *)
Definition renterFilesDownloadHandler (r : Renter) (st : list Download)
    (dk : Disk) (env : Env) (req : gmap string string)
  : Renter * list Download * Disk * list Event * option Response :=
  let '(r', st', dk', ev, res) :=
    Renter_Download r st dk env (FormValue req "nickname")
      (FormValue req "destination") in
  match res with
  | Panicked => (r', st', dk', ev, None)
  | Returned (Some err) =>
      (r', st', dk', ev,
       Some (writeError ("Download failed: " +:+ err)
               StatusInternalServerError))
  | Returned None => (r', st', dk', ev, Some writeSuccess)
  end.

(** [renterDownloadqueueHandler]: [downloadSet] starts empty and gets one
    literal per entry of the listing; calling an accessor on a nil entry,
    or through a pointer that is not allocated, is a panic ([None]). *)
Definition renterDownloadqueueHandler (r : Renter) (st : list Download)
  : option Response :=
  downloads ← Renter_DownloadQueue r;
  downloadSet ←
    foldl
      (λ acc dl,
         downloadSet ← acc;
         p ← dl;
         d ← st !! p;
         Some (downloadSet ++ [info d]))
      (Some []) downloads;
  Some (writeJSON downloadSet).

End Api.

(** ** A small instance of the crypto interface

    The digest is the sum of the bytes, the cipher adds the key to every
    byte. It serves to run the model on concrete inputs. *)

Definition byte_add (k b : byte) : byte :=
  default Byte.x00 (Byte.of_N ((Byte.to_N k + Byte.to_N b) mod 256)%N).

Definition sumCrypto : Crypto := {|
  Hash := N;
  CipherKey := byte;
  MerkleRoot := λ bs, foldr (λ b s, (Byte.to_N b + s)%N) 0%N bs;
  KeyStream := λ k _ bs, byte_add k <$> bs;
  KeyStream_length := λ k _ bs, length_fmap (byte_add k) bs;
|}.

(** ** Concrete inputs

    Two bytes on the wire; their digest in [sumCrypto] is 195, and the
    digest of their decryption under [ex_key] is 197. *)

Definition ex_a : byte := "a"%byte.
Definition ex_b : byte := "b"%byte.
Definition ex_key : byte := Byte.x01.

(** A host that serves the two bytes in one read. *)
Definition host_serves : HostScript :=
  mkHost None None None [[ex_a; ex_b]] None (λ _, None).

(** A host that serves them in two reads. *)
Definition host_trickles : HostScript :=
  mkHost None None None [[ex_a]; [ex_b]] None (λ _, None).

Definition host_refuses : HostScript :=
  mkHost (Some "connection refused"%string) None None [] None (λ _, None).

Definition ex_piece (active : bool) (size root : N)
  : filePiece (H := sumCrypto) :=
  mkPiece (H := sumCrypto) active "host"%string []
    (mkContract (H := sumCrypto) size root) ex_key.

Definition ex_session : Download (H := sumCrypto) :=
  mkDownload (H := sumCrypto) 0 0 false 2 "out"%string "report.pdf"%string
    [ex_piece true 2 195] (mkFile "out"%string 0 true).

Definition ex_disk : Disk := {["out"%string := []]}.

Definition ex_renter (ps : list filePiece) : Renter (H := sumCrypto) :=
  mkRenter (H := sumCrypto) false
    {["report.pdf"%string := mkFileEntry (H := sumCrypto) "report.pdf"%string ps]}
    [].

(** Every host serves the two bytes, in two reads. *)
Definition env_trickle : Env :=
  mkEnv 0 None (λ _ _, host_trickles) (λ _, "c"%byte).

(** The first host refuses the connection, the others serve the bytes. *)
Definition env_first_refuses : Env :=
  mkEnv 0 None
    (λ _ j, match j with 0 => host_refuses | _ => host_serves end)
    (λ _, "c"%byte).

(** * Properties *)

(** ** Machine integers *)

Lemma wrap64_small (x : N) : (x < 2 ^ 64)%N → wrap64 x = x.
Proof. intros Hx. unfold wrap64. by apply N.mod_small. Qed.

Lemma toInt64_lt (x : N) : (toInt64 x < 2 ^ 63)%Z.
Proof.
  unfold toInt64.
  pose proof (Z.mod_pos_bound (Z.of_N x) (2 ^ 64) ltac:(lia)) as Hb.
  destruct (Z.ltb_spec (Z.of_N x mod 2 ^ 64) (2 ^ 63)); lia.
Qed.

Lemma toInt64_le (x : N) : (Z.max 0 (toInt64 x) ≤ Z.of_N x)%Z.
Proof.
  unfold toInt64.
  pose proof (Z.mod_pos_bound (Z.of_N x) (2 ^ 64) ltac:(lia)) as Hb.
  pose proof (Z.mod_le (Z.of_N x) (2 ^ 64) ltac:(lia) ltac:(lia)) as Hle.
  destruct (Z.ltb_spec (Z.of_N x mod 2 ^ 64) (2 ^ 63)); lia.
Qed.

Lemma wrapInt64_small (z : Z) :
  (- 2 ^ 63 ≤ z < 2 ^ 63)%Z → wrapInt64 z = z.
Proof. intros Hz. unfold wrapInt64. rewrite Z.mod_small; lia. Qed.

Lemma byteZ_range (b : byte) : (0 ≤ byteZ b < 256)%Z.
Proof. unfold byteZ. pose proof (Byte.to_N_bounded b). lia. Qed.

(** ** The write path *)

Lemma written_le (o : WriteFault) (b : list byte) : written o b ≤ length b.
Proof. destruct o as [[m e]|]; simpl; lia. Qed.

Lemma File_Write_present (f : File) (dk dk' : Disk) b o f' n err path :
  File_Write f dk b o = (f', dk', n, err) →
  is_Some (dk' !! path) ↔ is_Some (dk !! path).
Proof.
  unfold File_Write. intros [= <- <- <- <-].
  destruct (dk !! f_name f) as [c|] eqn:Hc; [|done].
  destruct (decide (f_name f = path)) as [<-|Hne].
  - rewrite lookup_insert_eq, Hc. split; eauto.
  - by rewrite lookup_insert_ne.
Qed.

Lemma Download_Write_inv `{Crypto} (d : Download) (dk : Disk) b o d' dk' ev n err :
  Download_Write d dk b o = (d', dk', ev, n, err) →
  File_Write (d_file d) dk b o = (d_file d', dk', n, err) ∧
  received d' = wrap64 (received d + N.of_nat n) ∧
  ev = [EvReceived (received d')] ∧
  n = written o b ∧ err = write_err o ∧ same_session d d'.
Proof.
  unfold Download_Write, File_Write. intros [= <- <- <- <- <-].
  simpl. by repeat split.
Qed.

Lemma same_session_refl `{Crypto} (d : Download) : same_session d d.
Proof. by repeat split. Qed.

Lemma same_session_trans `{Crypto} (d1 d2 d3 : Download) :
  same_session d1 d2 → same_session d2 d3 → same_session d1 d3.
Proof.
  unfold same_session. intros (?&?&?&?&?&?&?&?) (?&?&?&?&?&?&?&?).
  repeat split; congruence.
Qed.

Lemma readTee_nil `{Crypto} key faults fin N off k acc (d : Download) (dk : Disk) :
  readTee key faults [] fin N off k acc d dk
  = if (N <=? 0)%Z then (d, dk, [], inr acc)
    else (d, dk, [], match fin with Some e => inl e | None => inr acc end).
Proof. done. Qed.

Lemma readTee_cons `{Crypto} key faults c rest fin N off k acc
    (d : Download) (dk : Disk) :
  readTee key faults (c :: rest) fin N off k acc d dk
  = if (N <=? 0)%Z then (d, dk, [], inr acc)
    else
      let p := take (Z.to_nat N) c in
      match p with
      | [] => readTee key faults rest fin N off k acc d dk
      | _ =>
          let '(d1, dk1, ev1, _, err) :=
            keyWriter_Write key off d dk p (faults k) in
          match err with
          | Some e => (d1, dk1, ev1, inl e)
          | None =>
              let '(d2, dk2, ev2, r) :=
                readTee key faults rest fin (N - Z.of_nat (length p))
                  (off + length p) (S k) (acc ++ p) d1 dk1 in
              (d2, dk2, ev1 ++ ev2, r)
          end
      end.
Proof. done. Qed.

Lemma readTee_frame `{Crypto} key faults chunks fin :
  ∀ N off k acc d dk d' dk' ev r,
    readTee key faults chunks fin N off k acc d dk = (d', dk', ev, r) →
    same_session d d' ∧
    (∀ path, is_Some (dk' !! path) ↔ is_Some (dk !! path)) ∧
    Forall is_received ev.
Proof.
  induction chunks as [|c rest IH]; intros N off k acc d dk d' dk' ev r Hrun;
    [rewrite readTee_nil in Hrun | rewrite readTee_cons in Hrun; cbv zeta in Hrun].
  - destruct (N <=? 0)%Z; injection Hrun as <- <- <- <-;
      (split; [apply same_session_refl | split; [done | constructor]]).
  - destruct (N <=? 0)%Z.
    { injection Hrun as <- <- <- <-.
      split; [apply same_session_refl | split; [done | constructor]]. }
    destruct (take (Z.to_nat N) c) as [|b p] eqn:Hp; [by eapply IH|].
    destruct (keyWriter_Write key off d dk (b :: p) (faults k))
      as [[[[d1 dk1] ev1] n] err] eqn:HW.
    apply Download_Write_inv in HW as (HF & _ & -> & _ & _ & Hs1).
    assert (Hdk1 : ∀ path, is_Some (dk1 !! path) ↔ is_Some (dk !! path))
      by (intros path; eapply File_Write_present, HF).
    destruct err as [e|].
    + injection Hrun as <- <- <- <-.
      split; [done | split; [done | by repeat constructor]].
    + destruct (readTee key faults rest fin _ _ _ _ d1 dk1)
        as [[[d2 dk2] ev2] r2] eqn:Hrest.
      injection Hrun as <- <- <- <-.
      apply IH in Hrest as (Hs2 & Hdk2 & Hev2).
      split; [by eapply same_session_trans|].
      split; [intros path; by rewrite Hdk2|].
      by constructor.
Qed.

Lemma readTee_bytes `{Crypto} key faults chunks fin :
  ∀ N off k acc d dk d' dk' ev bytes,
    readTee key faults chunks fin N off k acc d dk = (d', dk', ev, inr bytes) →
    bytes = acc ++ take (Z.to_nat N) (concat chunks).
Proof.
  induction chunks as [|c rest IH]; intros N off k acc d dk d' dk' ev bytes Hrun;
    [rewrite readTee_nil in Hrun | rewrite readTee_cons in Hrun; cbv zeta in Hrun].
  - simpl concat. rewrite take_nil, app_nil_r.
    destruct (N <=? 0)%Z; [congruence|]. destruct fin; congruence.
  - destruct (Z.leb_spec N 0).
    { replace (Z.to_nat N) with 0 by lia. rewrite take_0, app_nil_r. congruence. }
    simpl concat. rewrite take_app.
    destruct (take (Z.to_nat N) c) as [|b p] eqn:Hp.
    + apply IH in Hrun as ->.
      assert (length (take (Z.to_nat N) c) = 0) as Hlen by by rewrite Hp.
      rewrite length_take in Hlen.
      assert (length c = 0) as Hc by lia.
      rewrite Hc, Nat.sub_0_r. done.
    + destruct (keyWriter_Write key off d dk (b :: p) (faults k))
        as [[[[d1 dk1] ev1] n] err] eqn:HW.
      destruct err as [e|]; [congruence|].
      destruct (readTee key faults rest fin _ _ _ _ d1 dk1)
        as [[[d2 dk2] ev2] r2] eqn:Hrest.
      injection Hrun as <- <- <- ->.
      apply IH in Hrest as ->. rewrite <- (assoc_L (++)). f_equal. f_equal.
      f_equal.
      assert (length (b :: p) = Z.to_nat N `min` length c) as Hlen
        by by rewrite <- Hp, length_take.
      lia.
Qed.

Lemma readTee_err_indep `{Crypto} key faults chunks fin :
  ∀ N off k acc d dk d0 dk0,
    (readTee key faults chunks fin N off k acc d dk).2
    = (readTee key faults chunks fin N off k acc d0 dk0).2.
Proof.
  induction chunks as [|c rest IH]; intros N off k acc d dk d0 dk0;
    [rewrite !readTee_nil | rewrite !readTee_cons; cbv zeta].
  - by destruct (N <=? 0)%Z.
  - destruct (N <=? 0)%Z; [done|].
    destruct (take (Z.to_nat N) c) as [|b p] eqn:Hp; [apply IH|].
    destruct (keyWriter_Write key off d dk (b :: p) (faults k))
      as [[[[d1 dk1] ev1] n] err] eqn:HW.
    destruct (keyWriter_Write key off d0 dk0 (b :: p) (faults k))
      as [[[[d1' dk1'] ev1'] n'] err'] eqn:HW'.
    apply Download_Write_inv in HW as (_ & _ & _ & _ & -> & _).
    apply Download_Write_inv in HW' as (_ & _ & _ & _ & -> & _).
    destruct (write_err (faults k)); [done|].
    specialize (IH (N - Z.of_nat (length (b :: p)))%Z (off + length (b :: p))
                  (S k) (acc ++ b :: p) d1 dk1 d1' dk1').
    destruct (readTee key faults rest fin _ _ _ _ d1 dk1) as [[[? ?] ?] ?].
    destruct (readTee key faults rest fin _ _ _ _ d1' dk1') as [[[? ?] ?] ?].
    done.
Qed.

Lemma readTee_climbs `{Crypto} key faults chunks fin (hi : Z) :
  ∀ N off k acc d dk d' dk' ev r,
    readTee key faults chunks fin N off k acc d dk = (d', dk', ev, r) →
    (Z.of_N (received d) + Z.max 0 N ≤ hi)%Z → (hi < 2 ^ 64)%Z →
    climbs (received d) hi ev.
Proof.
  induction chunks as [|c rest IH]; intros N off k acc d dk d' dk' ev r Hrun Hhi Hlt;
    [rewrite readTee_nil in Hrun | rewrite readTee_cons in Hrun; cbv zeta in Hrun].
  - by destruct (N <=? 0)%Z; injection Hrun as <- <- <- <-.
  - destruct (Z.leb_spec N 0); [by injection Hrun as <- <- <- <-|].
    destruct (take (Z.to_nat N) c) as [|b p] eqn:Hp; [by eapply IH|].
    assert (length (b :: p) ≤ Z.to_nat N) as Hlen
      by (rewrite <- Hp, length_take; lia).
    destruct (keyWriter_Write key off d dk (b :: p) (faults k))
      as [[[[d1 dk1] ev1] n] err] eqn:HW.
    apply Download_Write_inv in HW as (_ & Hrcv & -> & Hn & _ & _).
    assert (n ≤ length (b :: p)) as Hn'.
    { rewrite Hn. etrans; [apply written_le|]. by rewrite KeyStream_length. }
    rewrite wrap64_small in Hrcv by lia.
    destruct err as [e|].
    + injection Hrun as <- <- <- <-. simpl. rewrite Hrcv. lia.
    + destruct (readTee key faults rest fin _ _ _ _ d1 dk1)
        as [[[d2 dk2] ev2] r2] eqn:Hrest.
      injection Hrun as <- <- <- <-.
      apply IH in Hrest; [|lia..].
      simpl. rewrite Hrcv in *. repeat split; [lia..|done].
Qed.

Lemma downloadPiece_frame `{Crypto} (d : Download) (dk : Disk) piece h d' dk' ev err :
  downloadPiece d dk piece h = (d', dk', ev, err) →
  same_session d d' ∧
  (∀ path, is_Some (dk' !! path) ↔ is_Some (dk !! path)) ∧
  Forall is_received ev.
Proof.
  unfold downloadPiece. intros Hrun.
  assert (Hid : same_session d d ∧
    (∀ path, is_Some (dk !! path) ↔ is_Some (dk !! path)) ∧
    Forall is_received []) by (split; [apply same_session_refl|done]).
  destruct (dial h); [by injection Hrun as <- <- <- <-|].
  destruct (send_tag h); [by injection Hrun as <- <- <- <-|].
  destruct (send_id h); [by injection Hrun as <- <- <- <-|].
  destruct (readTee _ _ _ _ _ _ _ _ d dk) as [[[d1 dk1] ev1] r] eqn:Hread.
  apply readTee_frame in Hread.
  destruct r as [e|bytes]; [by injection Hrun as <- <- <- <-|].
  by destruct (decide _); injection Hrun as <- <- <- <-.
Qed.

Lemma downloadPiece_err_indep `{Crypto} (d d0 : Download) (dk dk0 : Disk) piece h :
  (downloadPiece d dk piece h).2 = (downloadPiece d0 dk0 piece h).2.
Proof.
  unfold downloadPiece.
  destruct (dial h); [done|]. destruct (send_tag h); [done|].
  destruct (send_id h); [done|].
  pose proof (readTee_err_indep (EncryptionKey piece) (disk_write h) (stream h)
    (stream_end h) (toInt64 (FileSize (Contract piece))) 0 0 [] d dk d0 dk0)
    as Hr.
  destruct (readTee _ _ _ _ _ _ _ _ d dk) as [[[d1 dk1] ev1] r].
  destruct (readTee _ _ _ _ _ _ _ _ d0 dk0) as [[[d1' dk1'] ev1'] r'].
  simpl in Hr. subst r'.
  destruct r as [e|bytes]; [done|]. by destruct (decide _).
Qed.

Lemma downloadPiece_climbs `{Crypto} (d : Download) (dk : Disk) piece h d' dk' ev err :
  downloadPiece d dk piece h = (d', dk', ev, err) →
  received d = 0%N →
  climbs 0 (Z.max 0 (toInt64 (FileSize (Contract piece)))) ev.
Proof.
  unfold downloadPiece. intros Hrun Hz.
  destruct (dial h); [by injection Hrun as <- <- <- <-|].
  destruct (send_tag h); [by injection Hrun as <- <- <- <-|].
  destruct (send_id h); [by injection Hrun as <- <- <- <-|].
  destruct (readTee _ _ _ _ _ _ _ _ d dk) as [[[d1 dk1] ev1] r] eqn:Hread.
  pose proof (toInt64_lt (FileSize (Contract piece))).
  eapply readTee_climbs in Hread.
  - rewrite Hz in Hread.
    destruct r as [e|bytes]; [by injection Hrun as <- <- <- <-|].
    by destruct (decide _); injection Hrun as <- <- <- <-.
  - rewrite Hz. simpl. lia.
  - lia.
Qed.

(** C6. [Download.Write] hands the buffer to the destination file's
    [Write], and nothing else touches the file or the disk; whatever that
    write does (the whole buffer, a part of it, an error), the number [n]
    of bytes it reports is added to [received] (an addition of [uint64]s)
    and published as the counter's new value; [Write] returns that same
    [n] and error. The other fields of the session are unchanged. *)
Theorem Download_Write_adds_written `{Crypto} (d : Download) (dk : Disk)
    (b : list byte) (o : WriteFault) :
  let '(d', dk', ev, n, err) := Download_Write d dk b o in
  File_Write (d_file d) dk b o = (d_file d', dk', n, err) ∧
  n = written o b ∧ n ≤ length b ∧ err = write_err o ∧
  received d' = wrap64 (received d + N.of_nat n) ∧
  ev = [EvReceived (received d')] ∧
  same_session d d'.
Proof.
  destruct (Download_Write d dk b o) as [[[[d' dk'] ev] n] err] eqn:HW.
  apply Download_Write_inv in HW as (HF & Hrcv & Hev & Hn & Herr & Hs).
  repeat split; try done; try apply Hs.
  rewrite Hn. apply written_le.
Qed.

(** Below 2^64 the addition is the addition of numbers. *)
Lemma Download_Write_no_wrap `{Crypto} (d : Download) (dk : Disk)
    (b : list byte) (o : WriteFault) :
  (received d + N.of_nat (length b) < 2 ^ 64)%N →
  received (Download_Write d dk b o).1.1.1.1
  = (received d + N.of_nat (written o b))%N.
Proof.
  intros Hlt. pose proof (written_le o b).
  unfold Download_Write, File_Write. simpl. apply wrap64_small. lia.
Qed.

(** C1, the digest as the code takes it. [crypto.ReaderMerkleRoot] reads
    the tee, so the digest is that of the bytes as they come off the
    connection (bounded by the declared size), before decryption. If that
    digest differs from the contract's, [downloadPiece] returns an error,
    whatever the number of bytes read, and the attempt leaves [complete]
    as it was, in [downloadPiece] and in the loop body around it. *)
Theorem downloadPiece_integrity `{Crypto} (d : Download) (dk : Disk)
    (piece : filePiece) (h : HostScript) (env : Env) (i j : nat) :
  MerkleRoot (wire_bytes piece h) ≠ FileMerkleRoot (Contract piece) →
  host env i j = h →
  let '(d', _, _, err) := downloadPiece d dk piece h in
  let '(d'', _, _, ok) := tryPieces env i j [piece] d dk in
  err ≠ None ∧ complete d' = complete d ∧
  ok = false ∧ complete d'' = complete d.
Proof.
  intros Hroot Hh. simpl. rewrite Hh.
  destruct (downloadPiece d dk piece h) as [[[d' dk'] ev] err] eqn:Hrun.
  pose proof (downloadPiece_frame _ _ _ _ _ _ _ _ Hrun) as (Hs & _ & _).
  assert (err ≠ None) as Herr.
  { revert Hrun. unfold downloadPiece.
    destruct (dial h); [by intros [= <- <- <- <-]|].
    destruct (send_tag h); [by intros [= <- <- <- <-]|].
    destruct (send_id h); [by intros [= <- <- <- <-]|].
    destruct (readTee _ _ _ _ _ _ _ _ d dk) as [[[d1 dk1] ev1] r] eqn:Hread.
    destruct r as [e|bytes]; [by intros [= <- <- <- <-]|].
    apply readTee_bytes in Hread. simpl in Hread. subst bytes.
    fold (wire_bytes piece h).
    destruct (decide _); [done|]. by intros [= <- <- <- <-]. }
  destruct err as [e|]; [|done].
  simpl. repeat split; try done; apply Hs.
Qed.

Lemma downloadPiece_integrity_witness :
  let piece := ex_piece true 2 7 in
  MerkleRoot (wire_bytes piece host_trickles) ≠ FileMerkleRoot (Contract piece) ∧
  host env_trickle 0 0 = host_trickles ∧
  (downloadPiece ex_session ex_disk piece host_trickles).2 ≠ None.
Proof.
  intros piece.
  assert (MerkleRoot (wire_bytes piece host_trickles)
          ≠ FileMerkleRoot (Contract piece)) as Hne by (vm_compute; discriminate).
  split; [exact Hne|]. split; [reflexivity|].
  pose proof (downloadPiece_integrity ex_session ex_disk piece host_trickles
    env_trickle 0 0 Hne eq_refl) as HT.
  destruct (downloadPiece ex_session ex_disk piece host_trickles)
    as [[[d' dk'] ev] err].
  destruct (tryPieces env_trickle 0 0 [piece] ex_session ex_disk)
    as [[[d'' dk''] ev'] ok].
  exact (proj1 HT).
Defined.

(** C1 as stated fails: the host sends the two stored bytes, whose digest
    is the contract's; [downloadPiece] returns nil and the loop marks the
    session complete, although the decrypted bytes, which are what the
    destination file now holds, have another digest. *)
Lemma downloadPiece_decrypted_digest_cex :
  let piece := ex_piece true 2 195 in
  let env := mkEnv 0 None (λ _ _, host_serves) (λ _, "c"%byte) in
  let plain := KeyStream (Crypto := sumCrypto) ex_key 0 [ex_a; ex_b] in
  let '(_, dk', _, err) := downloadPiece ex_session ex_disk piece host_serves in
  let '(d'', _, _, ok) := tryPieces env 0 0 [piece] ex_session ex_disk in
  MerkleRoot plain ≠ FileMerkleRoot (Contract piece) ∧
  dk' !! "out"%string = Some plain ∧
  err = None ∧ ok = true ∧ complete d'' = true.
Proof. vm_compute. repeat split; discriminate. Qed.

(** ** Traces *)

Lemma attempts_app (t1 t2 : list Event) :
  attempts (t1 ++ t2) = attempts t1 ++ attempts t2.
Proof. apply omap_app. Qed.

Lemma abandoned_app (t1 t2 : list Event) :
  abandoned (t1 ++ t2) = abandoned t1 ++ abandoned t2.
Proof. apply omap_app. Qed.

Lemma sleeps_app (t1 t2 : list Event) :
  sleeps (t1 ++ t2) = sleeps t1 ++ sleeps t2.
Proof. apply omap_app. Qed.

Lemma last_value_app (v0 : N) (t1 t2 : list Event) :
  last_value v0 (t1 ++ t2) = last_value (last_value v0 t1) t2.
Proof. apply foldl_app. Qed.

Lemma received_only (w : list Event) :
  Forall is_received w →
  attempts w = [] ∧ abandoned w = [] ∧ sleeps w = [].
Proof.
  induction 1 as [|e w He _ (IH1 & IH2 & IH3)]; [done|].
  destruct e; try done.
Qed.

Lemma received_only_elem (w : list Event) (e : Event) :
  Forall is_received w → e ∈ w → is_received e.
Proof. intros Hw He. by eapply Forall_forall in Hw. Qed.

Lemma counter_ok_app (v0 hi : N) (t1 t2 : list Event) :
  counter_ok v0 hi (t1 ++ t2)
  ↔ counter_ok v0 hi t1 ∧ counter_ok (last_value v0 t1) hi t2.
Proof.
  revert v0. induction t1 as [|e t1 IH]; intros v0; [simpl; tauto|].
  destruct e; simpl; rewrite ?IH; unfold last_value; simpl; try tauto.
  split; [intros (-> & ? & ?) | intros ((-> & ?) & ?)]; done.
Qed.

Lemma climbs_counter_ok (lo hi : N) (hiZ : Z) (w : list Event) :
  climbs lo hiZ w → (hiZ ≤ Z.of_N hi)%Z → counter_ok lo hi w.
Proof.
  intros Hw Hhi. revert lo Hw.
  induction w as [|e w IH]; intros lo Hw; [done|].
  destruct e; try done. destruct Hw as (? & ? & ?).
  simpl. split; [done|]. split; [lia|]. by apply IH.
Qed.



(** ** The inner loop *)

Lemma loop_event_mono (lo hi : nat) (tr tr' : list Event) (e : Event) :
  (∀ x, x ∈ tr → x ∈ tr') → loop_event lo hi tr e → loop_event lo hi tr' e.
Proof. destruct e; simpl; intuition. Qed.

Lemma loop_event_range (lo hi lo' hi' : nat) (tr : list Event) (e : Event) :
  lo' ≤ lo → hi ≤ hi' → loop_event lo hi tr e → loop_event lo' hi' tr e.
Proof. destruct e; simpl; intuition lia. Qed.

Lemma tryPieces_cons `{Crypto} env i j piece rest (d : Download) (dk : Disk) :
  tryPieces env i j (piece :: rest) d dk
  = let ev0 := [EvBegin i j (received d) (f_pos (d_file d))] in
    let '(d1, dk1, ev1, downloadErr) :=
      downloadPiece d dk piece (host env i j) in
    match downloadErr with
    | None =>
        (finished d1, dk1, ev0 ++ ev1 ++ [EvDone i j; EvClose], true)
    | Some _ =>
        let d3 := set_received 0 (set_file (File_Seek0 (d_file d1)) d1) in
        let ev2 := [EvAbandon i j (received d3) (f_pos (d_file d3))] in
        let '(d4, dk4, ev4, ok) := tryPieces env i (S j) rest d3 dk1 in
        (d4, dk4, ev0 ++ ev1 ++ ev2 ++ ev4, ok)
    end.
Proof. done. Qed.

Lemma tryPieces_spec `{Crypto} env i (hi : N) ps :
  ∀ j d dk d' dk' ev ok,
    tryPieces env i j ps d dk = (d', dk', ev, ok) →
    received d = 0%N → f_pos (d_file d) = 0 →
    Forall (λ p, (FileSize (Contract p) ≤ hi)%N) ps →
    (∀ path, is_Some (dk' !! path) ↔ is_Some (dk !! path)) ∧
    (∀ e, e ∈ ev → loop_event i (S i) ev e ∧ ¬ is_sleep e) ∧
    counter_ok 0 hi ev ∧
    if ok then
      same_session (finished d) d' ∧ ∃ a, attempts ev = abandoned ev ++ [a]
    else
      same_session d d' ∧ received d' = 0%N ∧ f_pos (d_file d') = 0 ∧
      last_value 0 ev = 0%N ∧
      attempts ev = pair i <$> seq j (length ps) ∧
      abandoned ev = pair i <$> seq j (length ps) ∧
      (∀ e, e ∈ ev →
         match e with EvDone _ _ | EvClose => False | _ => True end).
Proof.
  induction ps as [|piece rest IH]; intros j d dk d' dk' ev ok Hrun Hrcv Hpos Hhi.
  { injection Hrun as <- <- <- <-.
    split; [done|]. split; [by intros e ?%elem_of_nil|]. split; [done|].
    split; [apply same_session_refl|]. repeat split; try done.
    by intros e ?%elem_of_nil. }
  rewrite tryPieces_cons in Hrun. cbv zeta in Hrun. rewrite Hrcv, Hpos in Hrun.
  apply Forall_cons in Hhi as [Hp Hhi].
  destruct (downloadPiece d dk piece (host env i j))
    as [[[d1 dk1] ev1] err] eqn:Hpiece.
  pose proof (downloadPiece_frame _ _ _ _ _ _ _ _ Hpiece) as (Hs1 & Hdk1 & Hev1).
  pose proof (downloadPiece_climbs _ _ _ _ _ _ _ _ Hpiece Hrcv) as Hclimb.
  pose proof (toInt64_le (FileSize (Contract piece))) as Hle.
  apply climbs_counter_ok with (hi := hi) in Hclimb; [|lia].
  pose proof (received_only _ Hev1) as (Hatt1 & Hab1 & _).
  destruct err as [e|].
  - (* the attempt failed: reset, next piece *)
    destruct (tryPieces env i (S j) rest _ dk1) as [[[d4 dk4] ev4] ok4] eqn:Hrest.
    injection Hrun as <- <- <- <-.
    apply IH in Hrest as (Hdk4 & Hev4 & Hc4 & Hok4); [|done..].
    split; [intros path; by rewrite Hdk4|].
    split.
    { intros x Hx. simpl in Hx.
      apply elem_of_cons in Hx as [->|Hx]. 1: (split; [simpl; repeat split; lia | intros []]).
      apply elem_of_app in Hx as [Hx|Hx].
      { apply (received_only_elem _ _ Hev1) in Hx.
        destruct x; try done. split; [done | intros []]. }
      apply elem_of_cons in Hx as [->|Hx].
      { split; [|intros []]. simpl. repeat split; try lia.
        apply list_elem_of_here. }
      destruct (Hev4 _ Hx) as [Hl Hns]. split; [|done].
      eapply loop_event_mono; [|done].
      intros y Hy. rewrite elem_of_cons, elem_of_app, elem_of_cons. auto. }
    split.
    { simpl. apply counter_ok_app. split; [done|]. simpl. done. }
    destruct ok4.
    + destruct Hok4 as (Hs4 & a & Ha). split.
      * eapply same_session_trans; [|done].
        destruct Hs1 as (?&?&?&?&?&?&?&?). by repeat split.
      * exists a. simpl. rewrite attempts_app, abandoned_app, Hatt1, Hab1.
        simpl. by rewrite Ha.
    + destruct Hok4 as (Hs4 & Hr4 & Hp4 & Hl4 & Hatt4 & Hab4 & Hnd4).
      split.
      { eapply same_session_trans; [|done].
        eapply same_session_trans; [done|]. by repeat split. }
      split; [done|]. split; [done|].
      split.
      { change (last_value 0 (EvBegin i j 0 0 :: ev1 ++ EvAbandon i j 0 0 :: ev4) = 0%N).
        change (last_value 0 (ev1 ++ EvAbandon i j 0 0 :: ev4) = 0%N).
        rewrite last_value_app. done. }
      split.
      { simpl. rewrite attempts_app, Hatt1. simpl. by rewrite Hatt4. }
      split.
      { simpl. rewrite abandoned_app, Hab1. simpl. by rewrite Hab4. }
      intros x Hx. simpl in Hx.
      apply elem_of_cons in Hx as [->|Hx]; [done|].
      apply elem_of_app in Hx as [Hx|Hx].
      { apply (received_only_elem _ _ Hev1) in Hx. by destruct x. }
      apply elem_of_cons in Hx as [->|Hx]; [done|]. by apply Hnd4.
  - (* the piece was retrieved *)
    injection Hrun as <- <- <- <-.
    split; [done|].
    split.
    { intros x Hx. simpl in Hx.
      apply elem_of_cons in Hx as [->|Hx];
        [split; [simpl; repeat split; lia | intros []]|].
      apply elem_of_app in Hx as [Hx|Hx].
      { apply (received_only_elem _ _ Hev1) in Hx.
        destruct x; try done. split; [done | intros []]. }
      apply elem_of_cons in Hx as [->|Hx]; [split; [done | intros []]|].
      apply elem_of_cons in Hx as [->|Hx]; [split; [done | intros []]|].
      by apply elem_of_nil in Hx. }
    split.
    { simpl. apply counter_ok_app. split; [done|]. done. }
    split; [destruct Hs1 as (?&?&?&?&?&?&?&?); by repeat split|].
    exists (i, j). simpl. by rewrite attempts_app, abandoned_app, Hatt1, Hab1.
Qed.

Lemma tryPieces_all_fail `{Crypto} env i ps :
  ∀ j d dk,
    (∀ m p, ps !! m = Some p → attempt_fails p (host env i (j + m))) →
    (tryPieces env i j ps d dk).2 = false.
Proof.
  induction ps as [|piece rest IH]; intros j d dk Hfail; [done|].
  rewrite tryPieces_cons. cbv zeta.
  pose proof (Hfail 0 piece eq_refl d dk) as H0. rewrite Nat.add_0_r in H0.
  destruct (downloadPiece d dk piece (host env i j)) as [[[d1 dk1] ev1] err].
  destruct err as [e|]; [|done].
  match goal with
  | |- context [tryPieces env i (S j) rest ?d3 dk1] =>
      specialize (IH (S j) d3 dk1);
      destruct (tryPieces env i (S j) rest d3 dk1) as [[[d4 dk4] ev4] ok4]
  end.
  apply IH. intros m p Hm.
  replace (S j + m) with (j + S m) by lia. by apply Hfail.
Qed.

Lemma tryPieces_first_success `{Crypto} env i m :
  ∀ ps p j d dk,
    ps !! m = Some p →
    attempt_succeeds p (host env i (j + m)) →
    (∀ m' p', m' < m → ps !! m' = Some p' →
              attempt_fails p' (host env i (j + m'))) →
    let '(_, _, ev, ok) := tryPieces env i j ps d dk in
    ok = true ∧
    attempts ev = pair i <$> seq j (S m) ∧
    abandoned ev = pair i <$> seq j m ∧
    ∃ w, ev = w ++ [EvDone i (j + m); EvClose] ∧
         ∀ a b, EvDone a b ∉ w.
Proof.
  induction m as [|m IH]; intros ps p j d dk Hm Hok Hfail;
    destruct ps as [|piece rest]; try done;
    rewrite tryPieces_cons; cbv zeta.
  - injection Hm as ->. specialize (Hok d dk). rewrite Nat.add_0_r in *.
    destruct (downloadPiece d dk p (host env i j)) as [[[d1 dk1] ev1] err] eqn:Hp.
    simpl in Hok. subst err.
    pose proof (downloadPiece_frame _ _ _ _ _ _ _ _ Hp) as (_ & _ & Hev1).
    pose proof (received_only _ Hev1) as (Hatt1 & Hab1 & _).
    split; [done|]. simpl. rewrite attempts_app, abandoned_app, Hatt1, Hab1.
    split; [done|]. split; [done|].
    exists (EvBegin i j (received d) (f_pos (d_file d)) :: ev1). split; [done|].
    intros a b [?|Hin]%elem_of_cons; [done|].
    by apply (received_only_elem _ _ Hev1) in Hin.
  - pose proof (Hfail 0 piece ltac:(lia) eq_refl d dk) as H0.
    rewrite Nat.add_0_r in H0.
    destruct (downloadPiece d dk piece (host env i j))
      as [[[d1 dk1] ev1] err] eqn:Hp.
    pose proof (downloadPiece_frame _ _ _ _ _ _ _ _ Hp) as (_ & _ & Hev1).
    pose proof (received_only _ Hev1) as (Hatt1 & Hab1 & _).
    destruct err as [e|]; [|done].
    match goal with
    | |- context [tryPieces env i (S j) rest ?d3 dk1] =>
        specialize (IH rest p (S j) d3 dk1 Hm);
        destruct (tryPieces env i (S j) rest d3 dk1) as [[[d4 dk4] ev4] ok4]
    end.
    replace (S j + m) with (j + S m) in IH by lia.
    destruct IH as (-> & Hatt & Hab & w & -> & Hw); [done|..].
    { intros m' p' Hlt Hm'. replace (S j + m') with (j + S m') by lia.
      apply Hfail; [lia|done]. }
    split; [done|]. simpl.
    rewrite !attempts_app, !abandoned_app, Hatt1, Hab1. simpl.
    split; [by rewrite Hatt|]. split; [by rewrite Hab|].
    eexists (EvBegin i j _ _ :: ev1 ++ EvAbandon i j _ _ :: w).
    split; [by rewrite <- !app_comm_cons, <- app_assoc|].
    intros a b [?|Hin]%elem_of_cons; [done|].
    apply elem_of_app in Hin as [Hin|[?|Hin]%elem_of_cons]; [|done|].
    + by apply (received_only_elem _ _ Hev1) in Hin.
    + by eapply Hw.
Qed.

(** ** The outer loop *)

Lemma backoff_small (i : nat) (b : byte) :
  i < downloadAttempts →
  backoff i b = (second * Z.of_nat (i * i) * byteZ b)%Z.
Proof.
  unfold downloadAttempts, backoff, second. intros Hi.
  pose proof (byteZ_range b).
  assert (0 ≤ Z.of_nat (i * i) ≤ 16)%Z by nia.
  rewrite (wrapInt64_small (1000000000 * _)) by lia.
  apply wrapInt64_small. nia.
Qed.

Lemma passes_S `{Crypto} n i env (d : Download) (dk : Disk) :
  passes (S n) i env d dk
  = let '(d1, dk1, ev1, ok) := tryPieces env i 0 (pieces d) d dk in
    if ok then (d1, dk1, ev1, true)
    else
      let '(d2, dk2, ev2, ok2) := passes n (S i) env d1 dk1 in
      (d2, dk2, ev1 ++ [EvSleep (backoff i (rand_byte env i))] ++ ev2, ok2).
Proof. done. Qed.

Lemma pass_grid_S (i0 k n : nat) :
  pass_grid i0 (S k) n = (pair i0 <$> seq 0 n) ++ pass_grid (S i0) k n.
Proof. done. Qed.

Lemma no_sleeps (tr : list Event) :
  (∀ e, e ∈ tr → ¬ is_sleep e) → sleeps tr = [].
Proof.
  induction tr as [|e tr IH]; intros Hns; [done|].
  assert (sleeps tr = []) as Htr
    by (apply IH; intros x Hx; apply Hns; by right).
  destruct e; try done. destruct (Hns (EvSleep ns)); [left|done].
Qed.

Lemma same_session_finished `{Crypto} (d d' : Download) :
  same_session d d' → same_session (finished d) (finished d').
Proof. intros (?&?&?&?&?&?&?&?). by repeat split. Qed.

Lemma passes_spec `{Crypto} env (hi : N) n :
  ∀ i0 d dk d' dk' ev ok,
    passes n i0 env d dk = (d', dk', ev, ok) →
    received d = 0%N → f_pos (d_file d) = 0 →
    Forall (λ p, (FileSize (Contract p) ≤ hi)%N) (pieces d) →
    (∀ path, is_Some (dk' !! path) ↔ is_Some (dk !! path)) ∧
    (∀ e, e ∈ ev → loop_event i0 (i0 + n) ev e) ∧
    counter_ok 0 hi ev ∧
    if ok then
      same_session (finished d) d' ∧ ∃ a, attempts ev = abandoned ev ++ [a]
    else
      same_session d d' ∧ received d' = 0%N ∧ f_pos (d_file d') = 0 ∧
      last_value 0 ev = 0%N ∧
      attempts ev = pass_grid i0 n (length (pieces d)) ∧
      abandoned ev = pass_grid i0 n (length (pieces d)) ∧
      sleeps ev = (λ i, backoff i (rand_byte env i)) <$> seq i0 n ∧
      (∀ e, e ∈ ev →
         match e with EvDone _ _ | EvClose => False | _ => True end).
Proof.
  induction n as [|n IH]; intros i0 d dk d' dk' ev ok Hrun Hrcv Hpos Hhi.
  { injection Hrun as <- <- <- <-.
    split; [done|]. split; [by intros e ?%elem_of_nil|]. split; [done|].
    split; [apply same_session_refl|]. repeat split; try done.
    by intros e ?%elem_of_nil. }
  rewrite passes_S in Hrun.
  destruct (tryPieces env i0 0 (pieces d) d dk) as [[[d1 dk1] ev1] ok1] eqn:Hpass.
  apply (tryPieces_spec env i0 hi) in Hpass as (Hdk1 & Hev1 & Hc1 & Hok1);
    [|done..].
  destruct ok1.
  { injection Hrun as <- <- <- <-.
    split; [done|]. split; [|done].
    intros e He. eapply loop_event_range; [| |by apply Hev1]; lia. }
  destruct Hok1 as (Hs1 & Hr1 & Hp1 & Hl1 & Hatt1 & Hab1 & Hnd1).
  assert (pieces d1 = pieces d) as Hps by apply Hs1.
  destruct (passes n (S i0) env d1 dk1) as [[[d2 dk2] ev2] ok2] eqn:Hrest.
  injection Hrun as <- <- <- <-.
  apply IH in Hrest as (Hdk2 & Hev2 & Hc2 & Hok2); [|by rewrite ?Hps..].
  split; [intros path; by rewrite Hdk2|].
  split.
  { intros e [He|[->|He]%elem_of_cons]%elem_of_app.
    - eapply loop_event_range, loop_event_mono; [| | |by apply Hev1]; [lia..|].
      intros x Hx. apply elem_of_app. by left.
    - done.
    - eapply loop_event_range, loop_event_mono; [| | |by apply Hev2]; [lia..|].
      intros x Hx. apply elem_of_app. right. by right. }
  split.
  { apply counter_ok_app. split; [done|]. by rewrite Hl1. }
  destruct ok2.
  { destruct Hok2 as (Hs2 & a & Ha). split.
    - eapply same_session_trans; [|done]. by apply same_session_finished.
    - exists a. rewrite attempts_app, abandoned_app. simpl.
      by rewrite Ha, Hatt1, Hab1, <- app_assoc. }
  destruct Hok2 as (Hs2 & Hr2 & Hp2 & Hl2 & Hatt2 & Hab2 & Hsl2 & Hnd2).
  split; [by eapply same_session_trans|].
  split; [done|]. split; [done|].
  split; [by rewrite last_value_app, Hl1|].
  rewrite attempts_app, abandoned_app, sleeps_app, pass_grid_S.
  rewrite Hatt1, Hab1. simpl. rewrite Hatt2, Hab2, Hsl2, Hps.
  rewrite no_sleeps by (intros e He; by apply Hev1).
  repeat split; try done.
  intros e [He|[->|He]%elem_of_cons]%elem_of_app; [by apply Hnd1|done|by apply Hnd2].
Qed.


Lemma pieces_bounded `{Crypto} (ps : list filePiece) :
  ∃ hi, Forall (λ p, (FileSize (Contract p) ≤ hi)%N) ps.
Proof.
  induction ps as [|p ps [hi IH]]; [by exists 0%N|].
  exists (N.max (FileSize (Contract p)) hi). constructor; [lia|].
  eapply Forall_impl; [done|]. simpl. lia.
Qed.



Lemma passes_all_fail `{Crypto} env n :
  ∀ i0 d dk,
    (∀ i m p, i0 ≤ i < i0 + n → pieces d !! m = Some p →
              attempt_fails p (host env i m)) →
    received d = 0%N → f_pos (d_file d) = 0 →
    (passes n i0 env d dk).2 = false.
Proof.
  induction n as [|n IH]; intros i0 d dk Hfail Hrcv Hpos; [done|].
  rewrite passes_S.
  destruct (pieces_bounded (pieces d)) as [hi Hhi].
  pose proof (tryPieces_all_fail env i0 (pieces d) 0 d dk) as Hok1.
  destruct (tryPieces env i0 0 (pieces d) d dk) as [[[d1 dk1] ev1] ok1] eqn:Hpass.
  simpl in Hok1. rewrite Hok1 by (intros m p Hm; apply Hfail; [lia|done]).
  rewrite Hok1 in Hpass by (intros m p Hm; apply Hfail; [lia|done]).
  apply (tryPieces_spec env i0 hi) in Hpass
    as (_ & _ & _ & Hs1 & Hr1 & Hp1 & _); [|done..].
  assert (pieces d1 = pieces d) as Hps by apply Hs1.
  specialize (IH (S i0) d1 dk1).
  destruct (passes n (S i0) env d1 dk1) as [[[d2 dk2] ev2] ok2].
  apply IH; [|done..]. intros i m p Hi Hm. apply Hfail; [lia|].
  by rewrite <- Hps.
Qed.

Lemma passes_first_success `{Crypto} env k :
  ∀ n i0 d dk m p,
    k < n → pieces d !! m = Some p →
    attempt_succeeds p (host env (i0 + k) m) →
    (∀ i m' p', pieces d !! m' = Some p' →
                i0 ≤ i < i0 + k ∨ (i = i0 + k ∧ m' < m) →
                attempt_fails p' (host env i m')) →
    received d = 0%N → f_pos (d_file d) = 0 →
    let '(_, _, ev, ok) := passes n i0 env d dk in
    ok = true ∧
    attempts ev
    = pass_grid i0 k (length (pieces d)) ++ (pair (i0 + k) <$> seq 0 (S m)) ∧
    sleeps ev = (λ i, backoff i (rand_byte env i)) <$> seq i0 k ∧
    ∃ w, ev = w ++ [EvDone (i0 + k) m; EvClose] ∧ ∀ a b, EvDone a b ∉ w.
Proof.
  induction k as [|k IH]; intros n i0 d dk m p Hk Hm Hok Hfail Hrcv Hpos;
    (destruct n as [|n]; [lia|]); rewrite passes_S;
    destruct (pieces_bounded (pieces d)) as [hi Hhi].
  - rewrite Nat.add_0_r in *.
    pose proof (tryPieces_first_success env i0 m (pieces d) p 0 d dk Hm Hok)
      as Hfirst.
    destruct (tryPieces env i0 0 (pieces d) d dk)
      as [[[d1 dk1] ev1] ok1] eqn:Hpass.
    destruct Hfirst as (-> & Hatt & _ & w & -> & Hw).
    { intros m' p' Hlt Hm'. apply Hfail; [done|lia]. }
    apply (tryPieces_spec env i0 hi) in Hpass as (_ & Hev1 & _); [|done..].
    split; [done|]. split; [done|].
    split; [apply no_sleeps; intros e He; by apply Hev1|]. eauto.
  - pose proof (tryPieces_all_fail env i0 (pieces d) 0 d dk) as Hok1.
    destruct (tryPieces env i0 0 (pieces d) d dk)
      as [[[d1 dk1] ev1] ok1] eqn:Hpass.
    simpl in Hok1. rewrite Hok1 by (intros m' p' Hm'; apply Hfail; [done|lia]).
    rewrite Hok1 in Hpass by (intros m' p' Hm'; apply Hfail; [done|lia]).
    apply (tryPieces_spec env i0 hi) in Hpass
      as (_ & Hev1 & _ & Hs1 & Hr1 & Hp1 & _ & Hatt1 & _ & Hnd1); [|done..].
    assert (pieces d1 = pieces d) as Hps by apply Hs1.
    specialize (IH n (S i0) d1 dk1 m p).
    destruct (passes n (S i0) env d1 dk1) as [[[d2 dk2] ev2] ok2].
    replace (S i0 + k) with (i0 + S k) in IH by lia.
    destruct IH as (-> & Hatt & Hsl & w & -> & Hw); [lia|by rewrite Hps|done| |done..|].
    { intros i m' p' Hm' Hi. apply Hfail; [by rewrite <- Hps|lia]. }
    split; [done|].
    rewrite attempts_app, sleeps_app. simpl.
    rewrite Hatt, Hatt1, Hsl, Hps, pass_grid_S, <- app_assoc.
    rewrite (no_sleeps ev1) by (intros e He; by apply Hev1).
    split; [done|]. split; [done|].
    exists (ev1 ++ EvSleep (backoff i0 (rand_byte env i0)) :: w).
    split; [by rewrite <- app_assoc|].
    intros a b [Hin|[?|Hin]%elem_of_cons]%elem_of_app;
      [by apply Hnd1 in Hin|done|by eapply Hw].
Qed.

(** ** [newDownload] *)

Lemma activePieces_filter `{Crypto} (ps : list filePiece) :
  activePieces ps = filter (λ p, Active p = true) ps.
Proof.
  unfold activePieces.
  enough (∀ acc, foldl (λ acc piece, if Active piece then acc ++ [piece] else acc)
                   acc ps = acc ++ filter (λ p, Active p = true) ps) as Hgen
    by apply (Hgen []).
  induction ps as [|p ps IH]; intros acc; simpl; [by rewrite app_nil_r|].
  rewrite IH, filter_cons. destruct (Active p) eqn:Hp.
  - rewrite decide_True by done. by rewrite <- app_assoc.
  - by rewrite decide_False by done.
Qed.

Lemma activePieces_none `{Crypto} (ps : list filePiece) :
  activePieces ps = [] ↔ ∀ p, p ∈ ps → Active p = false.
Proof.
  rewrite activePieces_filter. split.
  - intros Hnil p Hp. destruct (Active p) eqn:Hact; [|done].
    assert (p ∈ filter (λ p, Active p = true) ps) as Hin
      by by apply list_elem_of_filter.
    rewrite Hnil in Hin. by apply elem_of_nil in Hin.
  - intros Hall. induction ps as [|p ps IH]; [done|].
    rewrite filter_cons, decide_False.
    + apply IH. intros q Hq. apply Hall. by right.
    + rewrite Hall by left. done.
Qed.

Lemma newDownload_create_fails `{Crypto} f dest env dk e :
  create_fail env = Some e →
  newDownload f dest env dk = (dk, NewErr e).
Proof. unfold newDownload, os_Create. by intros ->. Qed.

Lemma newDownload_no_active `{Crypto} f dest env dk :
  create_fail env = None → activePieces (Pieces f) = [] →
  newDownload f dest env dk
  = (<[dest := []]> dk, NewErr "no active pieces"%string).
Proof. unfold newDownload, os_Create. by intros -> ->. Qed.

Lemma newDownload_ok `{Crypto} f dest env dk :
  create_fail env = None → activePieces (Pieces f) ≠ [] →
  ∃ p0, Pieces f !! 0 = Some p0 ∧
    newDownload f dest env dk
    = (<[dest := []]> dk,
       NewOk (mkDownload 0 (now env) false (FileSize (Contract p0)) dest
                (Name f) (activePieces (Pieces f)) (mkFile dest 0 true))).
Proof.
  unfold newDownload, os_Create. intros -> Hact.
  destruct (Pieces f) as [|p0 ps] eqn:Hps; [done|].
  exists p0. split; [done|].
  rewrite decide_False; [done|]. by destruct (activePieces (p0 :: ps)).
Qed.

(** ** [Renter.Download] *)

Lemma Renter_Download_unknown `{Crypto} (r : Renter) st (dk : Disk) env nick dest :
  files r !! nick = None →
  Renter_Download r st dk env nick dest
  = (mkRenter true (files r) (downloadQueue r), st, dk, [],
     Returned (Some "no file of that nickname"%string)).
Proof. unfold Renter_Download. simpl. by intros ->. Qed.

Lemma Renter_Download_not_constructed `{Crypto} (r : Renter) st (dk : Disk) env
    nick dest f dk0 e :
  files r !! nick = Some f →
  newDownload f dest env dk = (dk0, NewErr e) →
  Renter_Download r st dk env nick dest
  = (mkRenter true (files r) (downloadQueue r), st, dk0, [],
     Returned (Some e)).
Proof. unfold Renter_Download. simpl. by intros -> ->. Qed.

Lemma Renter_Download_constructed `{Crypto} (r : Renter) st (dk : Disk) env
    nick dest f dk0 d0 :
  files r !! nick = Some f →
  newDownload f dest env dk = (dk0, NewOk d0) →
  Renter_Download r st dk env nick dest
  = let '(d, dk1, ev, ok) := passes downloadAttempts 0 env d0 dk0 in
    let r' := mkRenter false (files r) (downloadQueue r ++ [length st]) in
    if ok then (r', st ++ [d], dk1, ev, Returned None)
    else
      (r', st ++ [set_file (File_Close (d_file d)) d], os_Remove dest dk1,
       ev ++ [EvClose; EvRemove dest],
       Returned (Some "could not download any file pieces"%string)).
Proof. unfold Renter_Download. simpl. by intros -> ->. Qed.

(** The three ways a call goes: no session (nothing is attempted), or a
    session made by [newDownload] and run through the loop. *)
Lemma Renter_Download_cases `{Crypto} (r : Renter) st (dk : Disk) env nick dest :
  (∃ r' dk' e, Renter_Download r st dk env nick dest
               = (r', st, dk', [], Returned (Some e)) ∧
               downloadQueue r' = downloadQueue r) ∨
  (∃ f p0 d0 dk0,
     files r !! nick = Some f ∧ Pieces f !! 0 = Some p0 ∧
     activePieces (Pieces f) ≠ [] ∧
     dk0 = <[dest := []]> dk ∧
     d0 = mkDownload 0 (now env) false (FileSize (Contract p0)) dest (Name f)
            (activePieces (Pieces f)) (mkFile dest 0 true) ∧
     newDownload f dest env dk = (dk0, NewOk d0)).
Proof.
  destruct (files r !! nick) as [f|] eqn:Hf.
  2:{ left. eexists _, _, _. by rewrite Renter_Download_unknown. }
  destruct (create_fail env) as [e|] eqn:Hc.
  { left. eexists _, _, _.
    erewrite Renter_Download_not_constructed;
      [done|done|by apply newDownload_create_fails]. }
  destruct (decide (activePieces (Pieces f) = [])) as [Hnil|Hact].
  { left. eexists _, _, _.
    erewrite Renter_Download_not_constructed;
      [done|done|by apply newDownload_no_active]. }
  right. destruct (newDownload_ok f dest env dk Hc Hact) as (p0 & Hp0 & Hnew).
  by eexists f, p0, _, _.
Qed.

(** C3. A session was constructed and every attempt of every piece fails
    in each of the 5 passes: all 5 passes are run over all the pieces,
    every attempt is abandoned, then the handle is closed and the
    destination removed; the file is gone from the disk, the session is
    closed and not complete, and the call returns an error. *)
Theorem Download_exhaustion `{Crypto} (r : Renter) (st : list Download)
    (dk : Disk) (env : Env) (nick dest : string) (f : file) :
  files r !! nick = Some f →
  create_fail env = None →
  activePieces (Pieces f) ≠ [] →
  (∀ i j p, i < downloadAttempts → activePieces (Pieces f) !! j = Some p →
            attempt_fails p (host env i j)) →
  let '(_, st', dk', ev, res) := Renter_Download r st dk env nick dest in
  res = Returned (Some "could not download any file pieces"%string) ∧
  dk' !! dest = None ∧
  (∃ d, st' !! length st = Some d ∧
        f_open (d_file d) = false ∧ complete d = false) ∧
  attempts ev
  = pass_grid 0 downloadAttempts (length (activePieces (Pieces f))) ∧
  abandoned ev = attempts ev ∧
  ∃ w, ev = w ++ [EvClose; EvRemove dest] ∧ EvClose ∉ w.
Proof.
  intros Hf Hc Hact Hfail.
  destruct (newDownload_ok f dest env dk Hc Hact) as (p0 & Hp0 & Hnew).
  rewrite (Renter_Download_constructed _ _ _ _ _ _ _ _ _ Hf Hnew).
  set (d0 := mkDownload _ _ _ _ _ _ _ _) in *.
  destruct (pieces_bounded (pieces d0)) as [hi Hhi].
  pose proof (passes_all_fail env downloadAttempts 0 d0 (<[dest:=[]]> dk)) as Hok.
  destruct (passes downloadAttempts 0 env d0 (<[dest:=[]]> dk))
    as [[[d1 dk1] ev1] ok] eqn:Hrun.
  assert (ok = false) as ->.
  { apply Hok; [|done..]. intros i m p Hi Hm. apply Hfail; [lia|done]. }
  clear Hok.
  apply (passes_spec env hi) in Hrun
    as (_ & _ & _ & Hs & _ & _ & _ & Hatt & Hab & _ & Hnd); [|done..].
  split; [done|]. split; [apply lookup_delete_eq|].
  split.
  { eexists. split; [apply list_lookup_middle; done|].
    split; [done|]. simpl. destruct Hs as (_ & -> & _). done. }
  rewrite attempts_app, abandoned_app, Hatt, Hab, !app_nil_r.
  split; [done|]. split; [done|].
  exists ev1. split; [done|]. intros Hin. by apply Hnd in Hin.
Qed.

Lemma Download_exhaustion_witness :
  let ps := [ex_piece false 1 0; ex_piece true 2 7] in
  let '(_, _, dk', ev, res) :=
    Renter_Download (ex_renter ps) [] ∅ env_trickle
      "report.pdf"%string "out"%string in
  res = Returned (Some "could not download any file pieces"%string) ∧
  dk' !! "out"%string = None ∧
  attempts ev = [(0, 0); (1, 0); (2, 0); (3, 0); (4, 0)].
Proof.
  intros ps.
  assert (files (ex_renter ps) !! "report.pdf"%string
          = Some (mkFileEntry (H := sumCrypto) "report.pdf"%string ps)) as Hf
    by (vm_compute; reflexivity).
  assert (∀ i j p, i < downloadAttempts →
            activePieces (Pieces (mkFileEntry (H := sumCrypto) "report.pdf"%string ps)) !! j = Some p →
            attempt_fails p (host env_trickle i j)) as Hfail.
  { intros i [|[|j]] p _ [= <-]. intros d dk.
    rewrite (downloadPiece_err_indep d ex_session dk ex_disk).
    vm_compute. discriminate. }
  pose proof (Download_exhaustion (ex_renter ps) [] ∅ env_trickle
    "report.pdf"%string "out"%string _ Hf eq_refl ltac:(vm_compute; discriminate) Hfail) as HT.
  destruct (Renter_Download (ex_renter ps) [] ∅ env_trickle
      "report.pdf"%string "out"%string) as [[[[r' st'] dk'] ev] res].
  destruct HT as (Hres & Hdk & _ & Hatt & _).
  split; [exact Hres|]. split; [exact Hdk|]. exact Hatt.
Defined.

(** C4. A session was constructed and attempt [(i, j)] is the first, in
    the order of the loops, that succeeds: the call returns nil, the
    session is complete and its handle closed, the destination file is on
    the disk; the attempts made are those of the passes before [i] and
    pieces [0 .. j] of pass [i], and the trace ends with the success and
    the close: no later piece, no later pass, no removal. *)
Theorem Download_first_success `{Crypto} (r : Renter) (st : list Download)
    (dk : Disk) (env : Env) (nick dest : string) (f : file) (i j : nat)
    (p : filePiece) :
  files r !! nick = Some f →
  create_fail env = None →
  i < downloadAttempts →
  activePieces (Pieces f) !! j = Some p →
  attempt_succeeds p (host env i j) →
  (∀ i' j' p', activePieces (Pieces f) !! j' = Some p' →
               i' < i ∨ (i' = i ∧ j' < j) →
               attempt_fails p' (host env i' j')) →
  let '(_, st', dk', ev, res) := Renter_Download r st dk env nick dest in
  res = Returned None ∧
  (∃ d, st' !! length st = Some d ∧
        complete d = true ∧ f_open (d_file d) = false) ∧
  is_Some (dk' !! dest) ∧
  attempts ev
  = pass_grid 0 i (length (activePieces (Pieces f)))
    ++ (pair i <$> seq 0 (S j)) ∧
  ∃ w, ev = w ++ [EvDone i j; EvClose] ∧ ∀ a b, EvDone a b ∉ w.
Proof.
  intros Hf Hc Hi Hj Hok Hfail.
  assert (activePieces (Pieces f) ≠ []) as Hact by (intros Hnil; by rewrite Hnil in Hj).
  destruct (newDownload_ok f dest env dk Hc Hact) as (p0 & Hp0 & Hnew).
  rewrite (Renter_Download_constructed _ _ _ _ _ _ _ _ _ Hf Hnew).
  set (d0 := mkDownload _ _ _ _ _ _ _ _) in *.
  destruct (pieces_bounded (pieces d0)) as [hi Hhi].
  pose proof (passes_first_success env i downloadAttempts 0 d0
    (<[dest:=[]]> dk) j p Hi Hj Hok) as Hfirst.
  destruct (passes downloadAttempts 0 env d0 (<[dest:=[]]> dk))
    as [[[d1 dk1] ev1] ok] eqn:Hrun.
  destruct Hfirst as (-> & Hatt & _ & Hw); [|done|done|].
  { intros i' m' p' Hm' Hlt. apply Hfail; [done|lia]. }
  apply (passes_spec env hi) in Hrun as (Hdk & _ & _ & Hs & _); [|done..].
  split; [done|].
  split.
  { exists d1. split; [apply list_lookup_middle; done|].
    destruct Hs as (_ & -> & _ & _ & _ & _ & _ & ->). done. }
  split; [apply Hdk; by rewrite lookup_insert_eq|].
  done.
Qed.

(** The scenario of three pieces on hosts A, B and C: A refuses the
    connection, B serves the file. *)
Lemma Download_first_success_witness :
  let ps := [ex_piece true 2 195; ex_piece true 2 195; ex_piece true 2 195] in
  let '(_, st', dk', ev, res) :=
    Renter_Download (ex_renter ps) [] ∅ env_first_refuses
      "report.pdf"%string "out"%string in
  res = Returned None ∧
  attempts ev = [(0, 0); (0, 1)] ∧
  (Download_Complete <$> st') = [true] ∧
  (Download_Received <$> st') = [2%N].
Proof.
  intros ps.
  set (f := mkFileEntry (H := sumCrypto) "report.pdf"%string ps).
  assert (files (ex_renter ps) !! "report.pdf"%string = Some f) as Hf
    by (vm_compute; reflexivity).
  assert (attempt_succeeds (ex_piece true 2 195) (host env_first_refuses 0 1))
    as Hok.
  { intros d dk. rewrite (downloadPiece_err_indep d ex_session dk ex_disk).
    vm_compute. reflexivity. }
  assert (∀ i' j' p', activePieces (Pieces f) !! j' = Some p' →
            i' < 0 ∨ (i' = 0 ∧ j' < 1) →
            attempt_fails p' (host env_first_refuses i' j')) as Hfail.
  { intros i' j' p' Hp' [?|[-> ?]]; [lia|]. destruct j' as [|j']; [|lia].
    injection Hp' as <-. intros d dk.
    rewrite (downloadPiece_err_indep d ex_session dk ex_disk).
    vm_compute. discriminate. }
  pose proof (Download_first_success (ex_renter ps) [] ∅ env_first_refuses
    "report.pdf"%string "out"%string f 0 1 (ex_piece true 2 195) Hf eq_refl
    ltac:(unfold downloadAttempts; lia) eq_refl Hok Hfail) as HT.
  destruct (Renter_Download (ex_renter ps) [] ∅ env_first_refuses
      "report.pdf"%string "out"%string) as [[[[r' st'] dk'] ev] res] eqn:Hrun.
  destruct HT as (Hres & _ & _ & Hatt & _).
  split; [exact Hres|]. split; [exact Hatt|].
  pose proof (f_equal (λ x, x.1.1.1.2) Hrun) as Hst.
  vm_compute in Hst. subst st'. split; reflexivity.
Defined.

(** C5. In every call, every attempt begins with the counter and the write
    offset at zero; when an attempt has failed and the reset is done they
    are at zero again, which is what they were when that attempt began;
    and every attempt is abandoned in this way, except the last one when
    it is the one that succeeds. *)
Theorem reset_on_failure `{Crypto} (r : Renter) (st : list Download)
    (dk : Disk) (env : Env) (nick dest : string) :
  let '(_, _, _, ev, _) := Renter_Download r st dk env nick dest in
  (∀ i j rcv pos, EvBegin i j rcv pos ∈ ev → rcv = 0%N ∧ pos = 0) ∧
  (∀ i j rcv pos, EvAbandon i j rcv pos ∈ ev →
     rcv = 0%N ∧ pos = 0 ∧ EvBegin i j rcv pos ∈ ev) ∧
  (attempts ev = abandoned ev ∨ ∃ a, attempts ev = abandoned ev ++ [a]).
Proof.
  destruct (Renter_Download_cases r st dk env nick dest)
    as [(r' & dk' & e & -> & _)|(f & p0 & d0 & dk0 & Hf & Hp0 & Hact & -> & -> & Hnew)].
  { split; [by intros ???? ?%elem_of_nil|].
    split; [by intros ???? ?%elem_of_nil|]. by left. }
  rewrite (Renter_Download_constructed _ _ _ _ _ _ _ _ _ Hf Hnew).
  set (d0 := mkDownload _ _ _ _ _ _ _ _) in *.
  destruct (pieces_bounded (pieces d0)) as [hi Hhi].
  destruct (passes downloadAttempts 0 env d0 (<[dest:=[]]> dk))
    as [[[d1 dk1] ev1] ok] eqn:Hrun.
  apply (passes_spec env hi) in Hrun as (_ & Hev & _ & Hok); [|done..].
  assert (∀ e, e ∈ ev1 ++ [EvClose; EvRemove dest] →
               e ∈ ev1 ∨ e = EvClose ∨ e = EvRemove dest) as Htail.
  { intros e. rewrite elem_of_app, !elem_of_cons, elem_of_nil. tauto. }
  destruct ok.
  - destruct Hok as (_ & a & Ha).
    split; [intros i j rcv pos Hin; apply Hev in Hin; simpl in Hin; tauto|].
    split; [|eauto].
    intros i j rcv pos Hin. apply Hev in Hin as (_ & -> & -> & Hin). done.
  - destruct Hok as (_ & _ & _ & _ & Hatt & Hab & _).
    split.
    { intros i j rcv pos [Hin|[?|?]]%Htail; [|done..].
      apply Hev in Hin. simpl in Hin. tauto. }
    split.
    { intros i j rcv pos [Hin|[?|?]]%Htail; [|done..].
      apply Hev in Hin as (_ & -> & -> & Hin).
      split; [done|]. split; [done|]. apply elem_of_app. by left. }
    left. by rewrite attempts_app, abandoned_app, Hatt, Hab.
Qed.

Lemma reset_on_failure_witness :
  let ps := [ex_piece true 2 195; ex_piece true 2 195; ex_piece true 2 195] in
  let '(_, _, _, ev, _) :=
    Renter_Download (ex_renter ps) [] ∅ env_first_refuses
      "report.pdf"%string "out"%string in
  EvAbandon 0 0 0 0 ∈ ev ∧ EvBegin 0 0 0 0 ∈ ev.
Proof.
  intros ps.
  pose proof (reset_on_failure (ex_renter ps) [] ∅ env_first_refuses
    "report.pdf"%string "out"%string) as HT.
  destruct (Renter_Download (ex_renter ps) [] ∅ env_first_refuses
      "report.pdf"%string "out"%string) as [[[[r' st'] dk'] ev] res] eqn:Hrun.
  destruct HT as (_ & Hab & _).
  assert (EvAbandon 0 0 0 0 ∈ ev) as Hin.
  { pose proof (f_equal (λ x, x.1.2) Hrun) as Hev.
    vm_compute in Hev. subst ev.
    apply elem_of_cons. right. apply list_elem_of_here. }
  split; [exact Hin|]. exact (proj2 (proj2 (Hab 0 0 0%N 0 Hin))).
Defined.



(** C7, the failing case. The one active piece of the file fails in every
    pass (its host's bytes do not have the contract's digest) and the byte
    drawn after each pass is 99. After pass 4, the fifth and last, the
    call sleeps 16 * 99 seconds, and only then closes and removes the
    destination and returns its error: this sleep comes before no pass, so
    not every sleep of the call is followed by an attempt. *)
Lemma backoff_after_last_pass :
  let ps := [ex_piece true 2 7] in
  let '(_, _, _, ev, res) :=
    Renter_Download (ex_renter ps) [] ∅ env_trickle
      "report.pdf"%string "out"%string in
  res = Returned (Some "could not download any file pieces"%string) ∧
  (∃ pre,
     ev = pre ++ [EvSleep 1584000000000; EvClose; EvRemove "out"%string] ∧
     attempts pre = pass_grid 0 downloadAttempts 1 ∧
     length (sleeps pre) = 4) ∧
  (1584000000000 = second * Z.of_nat (4 * 4) * byteZ (rand_byte env_trickle 4))%Z ∧
  ¬ (∀ pre ns post, ev = pre ++ EvSleep ns :: post →
       ∃ a b, (a, b) ∈ attempts post).
Proof.
  vm_compute Renter_Download. cbv iota beta.
  split; [reflexivity|]. split; [|split; [reflexivity|]].
  - match goal with
    | |- ∃ pre, ?ev = _ ∧ _ => exists (take 24 ev)
    end.
    split; [reflexivity|]. split; reflexivity.
  - intros Hnext.
    match type of Hnext with
    | ∀ pre ns post, ?ev = _ → _ =>
        destruct (Hnext (take 24 ev) 1584000000000%Z
                    [EvClose; EvRemove "out"%string] eq_refl)
          as (a & b & Hin)
    end.
    vm_compute in Hin. by apply elem_of_nil in Hin.
Qed.

Lemma counter_ok_split (v0 hi : N) (pre post : list Event) (v : N) :
  counter_ok v0 hi (pre ++ EvReceived v :: post) →
  (last_value v0 pre ≤ v)%N ∧ (v ≤ hi)%N.
Proof. rewrite counter_ok_app. simpl. tauto. Qed.

(** C2 as stated fails. The first piece of the file is inactive and
    declares one byte, the active piece declares two; its host serves two
    bytes, one per read, whose digest is not the contract's. The counter
    goes 1, 2 and back to 0 in every pass, and 2 exceeds the declared
    size, which is 1. *)
Lemma received_not_monotone_cex :
  let ps := [ex_piece false 1 0; ex_piece true 2 7] in
  let '(_, st', _, ev, _) :=
    Renter_Download (ex_renter ps) [] ∅ env_trickle
      "report.pdf"%string "out"%string in
  counter_values ev = [1; 2; 0; 1; 2; 0; 1; 2; 0; 1; 2; 0; 1; 2; 0]%N ∧
  (Download_Filesize <$> st') = [1%N] ∧
  ¬ (∀ k v1 v2, counter_values ev !! k = Some v1 →
                counter_values ev !! S k = Some v2 → (v1 ≤ v2)%N) ∧
  ¬ (∀ v d, v ∈ counter_values ev → d ∈ st' → (v ≤ Download_Filesize d)%N).
Proof.
  vm_compute Renter_Download. cbv iota beta.
  split; [reflexivity|]. split; [reflexivity|]. split.
  - intros Hmono. specialize (Hmono 1 2%N 0%N eq_refl eq_refl). lia.
  - intros Hle.
    match type of Hle with
    | ∀ v d, _ → d ∈ [?d0] → _ =>
        specialize (Hle 2%N d0 ltac:(right; left) ltac:(left))
    end.
    vm_compute in Hle. by apply Hle.
Qed.

(** C2, amended. Every value that [Write] stores in the counter is at
    least the value the counter had just before; the counter only goes
    down when a failed attempt is abandoned, and then to zero. If no active
    piece declares more than [hi] bytes, no value exceeds [hi]; the
    declared size of the session is that of the first piece of the file,
    so the values stay within it when no active piece declares more. *)
Theorem received_steps `{Crypto} (r : Renter) (st : list Download)
    (dk : Disk) (env : Env) (nick dest : string) (f : file) (hi : N) :
  files r !! nick = Some f →
  (∀ p, p ∈ Pieces f → Active p = true → (FileSize (Contract p) ≤ hi)%N) →
  let '(_, st', _, ev, _) := Renter_Download r st dk env nick dest in
  (∀ pre v post, ev = pre ++ EvReceived v :: post →
     (last_value 0 pre ≤ v)%N ∧ (v ≤ hi)%N) ∧
  (∀ i j v pos, EvAbandon i j v pos ∈ ev → v = 0%N) ∧
  (∀ d, st' !! length st = Some d →
     ∃ p0, Pieces f !! 0 = Some p0 ∧
           Download_Filesize d = FileSize (Contract p0)).
Proof.
  intros Hf Hsize.
  destruct (Renter_Download_cases r st dk env nick dest)
    as [(r' & dk' & e & -> & _)|(f' & p0 & d0 & dk0 & Hf' & Hp0 & Hact & -> & -> & Hnew)].
  { split; [intros pre v post Hsplit; by destruct pre|].
    split; [by intros ???? ?%elem_of_nil|].
    intros d Hd. apply lookup_lt_Some in Hd. lia. }
  assert (f' = f) as -> by congruence.
  rewrite (Renter_Download_constructed _ _ _ _ _ _ _ _ _ Hf Hnew).
  set (d0 := mkDownload _ _ _ _ _ _ _ _) in *.
  assert (Forall (λ p, (FileSize (Contract p) ≤ hi)%N) (pieces d0)) as Hhi.
  { apply Forall_forall. intros p Hp. simpl in Hp.
    rewrite activePieces_filter in Hp. apply list_elem_of_filter in Hp as [Ha Hp].
    by apply Hsize. }
  destruct (passes downloadAttempts 0 env d0 (<[dest:=[]]> dk))
    as [[[d1 dk1] ev1] ok] eqn:Hrun.
  apply (passes_spec env hi) in Hrun as (_ & Hev & Hc & Hok); [|done..].
  assert (filesize d1 = FileSize (Contract p0)) as Hfs.
  { destruct ok; [destruct Hok as [Hs _]|destruct Hok as [Hs _]];
      by destruct Hs as (_ & _ & -> & _). }
  destruct ok.
  - split; [intros pre v post ->; by eapply counter_ok_split|].
    split.
    { intros i j v pos Hin. apply Hev in Hin. simpl in Hin. tauto. }
    intros d Hd. rewrite list_lookup_middle in Hd by done.
    injection Hd as <-. eauto.
  - split.
    { intros pre v post Hsplit. apply (counter_ok_split 0 hi pre post).
      rewrite <- Hsplit. apply counter_ok_app. by split. }
    split.
    { intros i j v pos [Hin|Hin]%elem_of_app.
      - apply Hev in Hin. simpl in Hin. tauto.
      - apply elem_of_cons in Hin as [?|Hin]; [done|].
        apply elem_of_cons in Hin as [?|Hin]; [done|]. by apply elem_of_nil in Hin. }
    intros d Hd. rewrite list_lookup_middle in Hd by done.
    injection Hd as <-. eauto.
Qed.

Lemma received_steps_witness :
  let ps := [ex_piece true 2 7] in
  let '(_, st', _, ev, _) :=
    Renter_Download (ex_renter ps) [] ∅ env_trickle
      "report.pdf"%string "out"%string in
  (∀ p, p ∈ ps → Active p = true → (FileSize (Contract p) ≤ 2)%N) ∧
  (∃ pre post, ev = pre ++ EvReceived 1 :: post ∧
               (last_value 0 pre ≤ 1)%N ∧ (1 ≤ 2)%N) ∧
  (Download_Filesize <$> st') = [2%N].
Proof.
  intros ps.
  set (f := mkFileEntry (H := sumCrypto) "report.pdf"%string ps).
  assert (files (ex_renter ps) !! "report.pdf"%string = Some f) as Hf
    by (vm_compute; reflexivity).
  assert (∀ p, p ∈ Pieces f → Active p = true → (FileSize (Contract p) ≤ 2)%N)
    as Hsize.
  { intros p Hp _. apply list_elem_of_singleton in Hp as ->. vm_compute.
    discriminate. }
  pose proof (received_steps (ex_renter ps) [] ∅ env_trickle
    "report.pdf"%string "out"%string f 2 Hf Hsize) as HT.
  destruct (Renter_Download (ex_renter ps) [] ∅ env_trickle
      "report.pdf"%string "out"%string) as [[[[r' st'] dk'] ev] res] eqn:Hrun.
  pose proof (f_equal (λ x, x.1.2) Hrun) as Hev.
  pose proof (f_equal (λ x, x.1.1.1.2) Hrun) as Hst.
  vm_compute in Hev, Hst. subst ev st'. clear Hrun.
  split; [exact Hsize|]. split; [|reflexivity].
  match goal with
  | |- ∃ pre post, ?ev = _ ∧ _ => exists (take 6 ev), (drop 7 ev)
  end.
  match goal with
  | |- ?ev = ?pre ++ ?x :: ?post ∧ _ =>
      assert (ev = pre ++ x :: post) as Hsplit by reflexivity
  end.
  split; [exact Hsplit|].
  destruct HT as (Hup & _ & _). exact (Hup _ _ _ Hsplit).
Defined.

(** ** The queue *)

(** The copy loop of [DownloadQueue] after [i] rounds. *)
Lemma DownloadQueue_rounds (q : list nat) (i : nat) :
  i ≤ length q →
  foldl
    (λ acc i,
       downloads ← acc;
       x ← q !! (length q - i - 1);
       Some (<[i := Some x]> downloads))
    (Some (replicate (length q) None))
    (seq 0 i)
  = Some ((Some <$> take i (reverse q)) ++ replicate (length q - i) None).
Proof.
  induction i as [|i IH]; intros Hi.
  { simpl. by rewrite Nat.sub_0_r. }
  rewrite seq_S, foldl_app, IH by lia. simpl.
  assert (i < length (reverse q)) as Hlt by (rewrite length_reverse; lia).
  destruct (lookup_lt_is_Some_2 _ _ Hlt) as [x Hx].
  assert (q !! (length q - i - 1) = Some x) as ->.
  { rewrite reverse_lookup in Hx by lia. rewrite <- Hx. f_equal. lia. }
  simpl. f_equal.
  rewrite (take_S_r _ _ x) by done. rewrite fmap_app. simpl.
  rewrite insert_app_r_alt by (rewrite length_fmap, length_take; lia).
  rewrite length_fmap, length_take, length_reverse.
  replace (i - i `min` length q) with 0 by lia.
  replace (length q - i) with (S (length q - S i)) by lia.
  simpl. by rewrite <- app_assoc.
Qed.

(** C9. A call of [Renter.Download] leaves the queue as it was when no
    session is constructed, and otherwise adds the new session (the next
    free index of the store) at its end; nothing is ever taken out. For
    every renter, [DownloadQueue] returns the queue reversed: the most
    recent session first, every entry once. *)
Theorem queue_append_and_listing `{Crypto} (r r0 : Renter)
    (st : list Download) (dk : Disk) (env : Env) (nick dest : string) :
  let constructed :=
    match files r !! nick with
    | Some f =>
        match (newDownload f dest env dk).2 with
        | NewOk _ => true
        | _ => false
        end
    | None => false
    end in
  let '(r', st', _, _, _) := Renter_Download r st dk env nick dest in
  downloadQueue r'
  = downloadQueue r ++ (if constructed then [length st] else []) ∧
  length st' = length st + (if constructed then 1 else 0) ∧
  Renter_DownloadQueue r0 = Some (Some <$> reverse (downloadQueue r0)) ∧
  Some <$> downloadQueue r0 ≡ₚ default [] (Renter_DownloadQueue r0).
Proof.
  assert (Renter_DownloadQueue r0 = Some (Some <$> reverse (downloadQueue r0)))
    as Hlist.
  { unfold Renter_DownloadQueue.
    rewrite DownloadQueue_rounds by done.
    rewrite Nat.sub_diag, app_nil_r, take_ge; [done|].
    by rewrite length_reverse. }
  assert (Some <$> downloadQueue r0 ≡ₚ default [] (Renter_DownloadQueue r0))
    as Hperm.
  { rewrite Hlist. simpl. by rewrite reverse_Permutation. }
  cbv zeta.
  destruct (files r !! nick) as [f|] eqn:Hf.
  2:{ rewrite Renter_Download_unknown by done. simpl.
      by rewrite app_nil_r, Nat.add_0_r. }
  destruct (newDownload f dest env dk) as [dk0 [d0|e|]] eqn:Hnew; simpl.
  - rewrite (Renter_Download_constructed _ _ _ _ _ _ _ _ _ Hf Hnew).
    destruct (passes _ _ _ _ _) as [[[d1 dk1] ev1] ok].
    destruct ok; simpl; by rewrite length_app.
  - rewrite (Renter_Download_not_constructed _ _ _ _ _ _ _ _ _ Hf Hnew).
    simpl. by rewrite app_nil_r, Nat.add_0_r.
  - unfold Renter_Download. simpl. rewrite Hf, Hnew. simpl.
    by rewrite app_nil_r, Nat.add_0_r.
Qed.

(** C10. [newDownload] never indexes an empty slice: it never panics,
    and neither does [Renter.Download]. A file without pieces, or whose
    pieces are all inactive, gets an error; a session is only returned
    when there is an active piece, hence a first piece, whose declared
    size becomes the session's. *)
Theorem newDownload_index_safe `{Crypto} (f : file) (dest : string)
    (env : Env) (dk : Disk) (r : Renter) (st : list Download)
    (nick : string) :
  (newDownload f dest env dk).2 ≠ NewPanic ∧
  ((∀ p, p ∈ Pieces f → Active p = false) →
   ∃ e, (newDownload f dest env dk).2 = NewErr e) ∧
  (∀ d, (newDownload f dest env dk).2 = NewOk d →
        pieces d = activePieces (Pieces f) ∧ pieces d ≠ [] ∧
        ∃ p0, Pieces f !! 0 = Some p0 ∧
              filesize d = FileSize (Contract p0)) ∧
  (Renter_Download r st dk env nick dest).2 ≠ Panicked.
Proof.
  assert (∀ f, (newDownload f dest env dk).2 ≠ NewPanic ∧
    ((∀ p, p ∈ Pieces f → Active p = false) →
     ∃ e, (newDownload f dest env dk).2 = NewErr e) ∧
    (∀ d, (newDownload f dest env dk).2 = NewOk d →
        pieces d = activePieces (Pieces f) ∧ pieces d ≠ [] ∧
        ∃ p0, Pieces f !! 0 = Some p0 ∧
              filesize d = FileSize (Contract p0))) as Hnew.
  { clear f. intros f.
    destruct (create_fail env) as [e|] eqn:Hc.
    { rewrite (newDownload_create_fails _ _ _ _ _ Hc). simpl.
      split; [done|]. split; [eauto|done]. }
    destruct (decide (activePieces (Pieces f) = [])) as [Hnil|Hact].
    { rewrite (newDownload_no_active _ _ _ _ Hc Hnil). simpl.
      split; [done|]. split; [eauto|done]. }
    destruct (newDownload_ok f dest env dk Hc Hact) as (p0 & Hp0 & ->). simpl.
    split; [done|]. split.
    - intros Hall. by apply activePieces_none in Hall.
    - intros d [= <-]. simpl. eauto. }
  destruct (Hnew f) as (H1 & H2 & H3).
  split; [done|]. split; [done|]. split; [done|].
  destruct (files r !! nick) as [f'|] eqn:Hf;
    [|by rewrite Renter_Download_unknown].
  destruct (Hnew f') as (Hnp & _).
  destruct (newDownload f' dest env dk) as [dk0 [d0|e|]] eqn:Hn; [| |done].
  - rewrite (Renter_Download_constructed _ _ _ _ _ _ _ _ _ Hf Hn).
    destruct (passes downloadAttempts 0 env d0 dk0) as [[[d1 dk1] ev1] ok].
    by destruct ok.
  - by rewrite (Renter_Download_not_constructed _ _ _ _ _ _ _ _ _ Hf Hn).
Qed.

Lemma newDownload_index_safe_witness :
  let f := mkFileEntry (H := sumCrypto) "report.pdf"%string [] in
  (∀ p, p ∈ Pieces f → Active p = false) ∧
  ∃ e, (newDownload f "out"%string env_trickle ∅).2 = NewErr e.
Proof.
  intros f.
  assert (∀ p, p ∈ Pieces f → Active p = false) as Hall
    by (intros p Hp; by apply elem_of_nil in Hp).
  split; [exact Hall|].
  exact (proj1 (proj2 (newDownload_index_safe f "out"%string env_trickle ∅
    (ex_renter []) [] "report.pdf"%string)) Hall).
Defined.

(** C8, the failing case. All the pieces of the file are inactive and the
    destination can be created: the call returns the error at once, with
    no attempt and no session queued, but the file that [os.Create] made
    is still on the disk (and the lock is still held). *)
Lemma construction_failure_leaves_file :
  let ps := [ex_piece false 2 195] in
  let '(r', st', dk', ev, res) :=
    Renter_Download (ex_renter ps) [] ∅ env_trickle
      "report.pdf"%string "out"%string in
  res = Returned (Some "no active pieces"%string) ∧
  ev = [] ∧ st' = [] ∧ downloadQueue r' = [] ∧
  (∅ : Disk) !! "out"%string = None ∧
  dk' !! "out"%string = Some [] ∧
  mu r' = true.
Proof. vm_compute. by repeat split. Qed.

(** The construction failures in general: an error at once, nothing
    attempted, nothing queued. The disk is untouched when the file is
    unknown or cannot be created; when no piece is active the created
    file stays. *)
Lemma construction_failures `{Crypto} (r : Renter) (st : list Download)
    (dk : Disk) (env : Env) (nick dest : string) :
  (files r !! nick = None →
   Renter_Download r st dk env nick dest
   = (mkRenter true (files r) (downloadQueue r), st, dk, [],
      Returned (Some "no file of that nickname"%string))) ∧
  (∀ f e, files r !! nick = Some f → create_fail env = Some e →
   Renter_Download r st dk env nick dest
   = (mkRenter true (files r) (downloadQueue r), st, dk, [],
      Returned (Some e))) ∧
  (∀ f, files r !! nick = Some f → create_fail env = None →
   activePieces (Pieces f) = [] →
   Renter_Download r st dk env nick dest
   = (mkRenter true (files r) (downloadQueue r), st, <[dest := []]> dk, [],
      Returned (Some "no active pieces"%string))).
Proof.
  split; [apply Renter_Download_unknown|]. split.
  - intros f e Hf Hc. eapply Renter_Download_not_constructed; [done|].
    by apply newDownload_create_fails.
  - intros f Hf Hc Hnil. eapply Renter_Download_not_constructed; [done|].
    by apply newDownload_no_active.
Qed.

(** * Further properties *)

(** ** One attempt: bounds *)

Lemma File_Write_other (f : File) (dk dk' : Disk) b o f' n err path :
  File_Write f dk b o = (f', dk', n, err) →
  path ≠ f_name f → dk' !! path = dk !! path.
Proof.
  unfold File_Write. intros [= <- <- <- <-] Hne.
  destruct (dk !! f_name f); [|done]. by rewrite lookup_insert_ne.
Qed.

Lemma File_Write_pos (f : File) (dk dk' : Disk) b o f' n err :
  File_Write f dk b o = (f', dk', n, err) → f_pos f' = f_pos f + n.
Proof. unfold File_Write. by intros [= <- <- <- <-]. Qed.

Lemma take_concat_length (N : nat) (c : list byte) (R : list byte) :
  length (take N (c ++ R))
  = length (take N c) + length (take (N - length (take N c)) R).
Proof. rewrite !length_take, length_app. lia. Qed.

Lemma readTee_offset `{Crypto} key faults chunks fin :
  ∀ N off k acc d dk d' dk' ev r,
    readTee key faults chunks fin N off k acc d dk = (d', dk', ev, r) →
    f_pos (d_file d')
    ≤ f_pos (d_file d) + length (take (Z.to_nat N) (concat chunks)) ∧
    ∀ path, path ≠ f_name (d_file d) → dk' !! path = dk !! path.
Proof.
  induction chunks as [|c rest IH]; intros N off k acc d dk d' dk' ev r Hrun;
    [rewrite readTee_nil in Hrun | rewrite readTee_cons in Hrun; cbv zeta in Hrun].
  - destruct (N <=? 0)%Z; injection Hrun as <- <- <- <-; (split; [lia|done]).
  - destruct (Z.leb_spec N 0).
    { injection Hrun as <- <- <- <-. split; [lia|done]. }
    simpl concat. rewrite take_concat_length.
    destruct (take (Z.to_nat N) c) as [|b p] eqn:Hp.
    { apply IH in Hrun as [Hpos Hdk]. simpl. rewrite Nat.sub_0_r. done. }
    destruct (keyWriter_Write key off d dk (b :: p) (faults k))
      as [[[[d1 dk1] ev1] n] err] eqn:HW.
    apply Download_Write_inv in HW as (HF & _ & _ & Hn & _ & Hs1).
    assert (n ≤ length (b :: p)) as Hn'.
    { rewrite Hn. etrans; [apply written_le|]. by rewrite KeyStream_length. }
    assert (f_pos (d_file d1) = f_pos (d_file d) + n) as Hpos1
      by by eapply File_Write_pos.
    assert (∀ path, path ≠ f_name (d_file d) → dk1 !! path = dk !! path) as Hdk1
      by (intros path Hne; by eapply File_Write_other).
    assert (f_name (d_file d1) = f_name (d_file d)) as Hname by apply Hs1.
    destruct err as [e|].
    + injection Hrun as <- <- <- <-. split; [lia|done].
    + destruct (readTee key faults rest fin _ _ _ _ d1 dk1)
        as [[[d2 dk2] ev2] r2] eqn:Hrest.
      injection Hrun as <- <- <- <-.
      apply IH in Hrest as [Hpos2 Hdk2].
      replace (Z.to_nat (N - Z.of_nat (length (b :: p))))
        with (Z.to_nat N - length (b :: p)) in Hpos2 by lia.
      split; [lia|]. intros path Hne. rewrite Hdk2 by by rewrite Hname.
      by apply Hdk1.
Qed.

Lemma readTee_offset_mono `{Crypto} key faults chunks fin :
  ∀ N off k acc d dk d' dk' ev r,
    readTee key faults chunks fin N off k acc d dk = (d', dk', ev, r) →
    f_pos (d_file d) ≤ f_pos (d_file d').
Proof.
  induction chunks as [|c rest IH]; intros N off k acc d dk d' dk' ev r Hrun;
    [rewrite readTee_nil in Hrun | rewrite readTee_cons in Hrun; cbv zeta in Hrun].
  - by destruct (N <=? 0)%Z; injection Hrun as <- _ _ _.
  - destruct (N <=? 0)%Z; [by injection Hrun as <- _ _ _|].
    destruct (take (Z.to_nat N) c) as [|b p]; [by eapply IH|].
    destruct (keyWriter_Write key off d dk (b :: p) (faults k))
      as [[[[d1 dk1] ev1] n] err] eqn:HW.
    apply Download_Write_inv in HW as (HF & _).
    apply File_Write_pos in HF.
    destruct err; [injection Hrun as <- _ _ _; lia|].
    destruct (readTee key faults rest fin _ _ _ _ d1 dk1)
      as [[[d2 dk2] ev2] r2] eqn:Hrest.
    injection Hrun as <- _ _ _. apply IH in Hrest. lia.
Qed.

(** X1. One attempt moves the write offset forward by at most the number
    of bytes the bounded reader can deliver, which is at most the
    declared size of the piece and at most what the host sends; it
    touches no file but the destination. *)
Theorem downloadPiece_within_declared_size `{Crypto} (d : Download)
    (dk : Disk) (piece : filePiece) (h : HostScript) :
  let '(d', dk', _, _) := downloadPiece d dk piece h in
  f_pos (d_file d) ≤ f_pos (d_file d') ∧
  f_pos (d_file d') ≤ f_pos (d_file d) + length (wire_bytes piece h) ∧
  (N.of_nat (length (wire_bytes piece h)) ≤ FileSize (Contract piece))%N ∧
  length (wire_bytes piece h) ≤ length (concat (stream h)) ∧
  ∀ path, path ≠ f_name (d_file d) → dk' !! path = dk !! path.
Proof.
  destruct (downloadPiece d dk piece h) as [[[d' dk'] ev] err] eqn:Hrun.
  pose proof (toInt64_le (FileSize (Contract piece))) as Hle.
  assert (N.of_nat (length (wire_bytes piece h)) ≤ FileSize (Contract piece))%N
    as Hsize by (unfold wire_bytes; rewrite length_take; lia).
  assert (length (wire_bytes piece h) ≤ length (concat (stream h))) as Hsent
    by (unfold wire_bytes; rewrite length_take; lia).
  revert Hrun. unfold downloadPiece.
  destruct (dial h); [intros [= <- <- <- <-]; repeat split; try done; try lia|].
  destruct (send_tag h); [intros [= <- <- <- <-]; repeat split; try done; try lia|].
  destruct (send_id h); [intros [= <- <- <- <-]; repeat split; try done; try lia|].
  destruct (readTee _ _ _ _ _ _ _ _ d dk) as [[[d1 dk1] ev1] r] eqn:Hread.
  pose proof (readTee_offset _ _ _ _ _ _ _ _ _ _ _ _ _ _ Hread) as [Hpos Hdk].
  fold (wire_bytes piece h) in Hpos.
  pose proof (readTee_offset_mono _ _ _ _ _ _ _ _ _ _ _ _ _ _ Hread) as Hmono.
  destruct r as [e|bytes]; [intros [= <- <- <- <-]; by repeat split|].
  destruct (decide _); intros [= <- <- <- <-]; by repeat split.
Qed.

(** X2. A piece that declares no bytes, or 2^63 bytes or more (the
    conversion to [int64] then gives a negative bound), has nothing read
    for it: the session and the disk are untouched whatever the host
    sends, and the attempt can only succeed when the digest of the empty
    string is the contract's. *)
Theorem downloadPiece_nothing_to_read `{Crypto} (d : Download) (dk : Disk)
    (piece : filePiece) (h : HostScript) :
  (FileSize (Contract piece) = 0 ∨
   2 ^ 63 ≤ FileSize (Contract piece) < 2 ^ 64)%N →
  let '(d', dk', ev, err) := downloadPiece d dk piece h in
  d' = d ∧ dk' = dk ∧ ev = [] ∧
  (err = None → MerkleRoot [] = FileMerkleRoot (Contract piece)).
Proof.
  intros Hsize.
  assert ((toInt64 (FileSize (Contract piece)) <=? 0)%Z = true) as Hlim.
  { apply Z.leb_le. unfold toInt64.
    destruct Hsize as [->|Hsize]; [done|].
    rewrite Z.mod_small by lia.
    destruct (Z.ltb_spec (Z.of_N (FileSize (Contract piece))) (2 ^ 63)); lia. }
  unfold downloadPiece.
  destruct (dial h); [done|]. destruct (send_tag h); [done|].
  destruct (send_id h); [done|].
  destruct (stream h) as [|c rest];
    [rewrite readTee_nil|rewrite readTee_cons]; rewrite Hlim;
    by destruct (decide _).
Qed.

Lemma downloadPiece_nothing_to_read_witness :
  let piece := ex_piece true (2 ^ 63) 195 in
  (FileSize (Contract piece) = 0 ∨
   2 ^ 63 ≤ FileSize (Contract piece) < 2 ^ 64)%N ∧
  (downloadPiece ex_session ex_disk piece host_serves).1.1.1 = ex_session ∧
  (downloadPiece ex_session ex_disk piece host_serves).2 ≠ None.
Proof.
  intros piece.
  assert (FileSize (Contract piece) = 0 ∨
          2 ^ 63 ≤ FileSize (Contract piece) < 2 ^ 64)%N as Hsize
    by (right; vm_compute; split; [discriminate|reflexivity]).
  split; [exact Hsize|].
  pose proof (downloadPiece_nothing_to_read ex_session ex_disk piece
    host_serves Hsize) as HT.
  destruct (downloadPiece ex_session ex_disk piece host_serves)
    as [[[d' dk'] ev] err].
  destruct HT as (Hd & _ & _ & Herr).
  split; [exact Hd|]. simpl. intros ->.
  specialize (Herr eq_refl). vm_compute in Herr. discriminate.
Defined.

(** ** One attempt: what a success means *)

Lemma splice_nil (c : list byte) (pos : nat) :
  pos ≤ length c → splice c pos [] = c.
Proof.
  intros Hpos. unfold splice. simpl.
  replace (pos - length c) with 0 by lia. simpl.
  by rewrite Nat.add_0_r, take_drop.
Qed.

Lemma splice_length (c : list byte) (pos : nat) (b : list byte) :
  pos + length b ≤ length (splice c pos b).
Proof.
  unfold splice. rewrite !length_app, length_take, length_replicate. lia.
Qed.

Lemma splice_app (c : list byte) (pos : nat) (a b : list byte) :
  splice (splice c pos a) (pos + length a) b = splice c pos (a ++ b).
Proof.
  unfold splice.
  remember (take pos c ++ replicate (pos - length c) Byte.x00) as P eqn:HeqP.
  assert (length P = pos) as HP
    by (subst P; rewrite length_app, length_take, length_replicate; lia).
  rewrite !(app_assoc (take pos c)), <- HeqP.
  assert (length (P ++ a) = pos + length a) as HPa
    by (rewrite length_app; lia).
  rewrite (app_assoc P a (drop _ c)).
  rewrite take_app_length' by done.
  rewrite drop_app_ge by lia.
  rewrite HPa, (length_app (P ++ a)), HPa, (length_app a b).
  replace (pos + length a - (pos + length a + length (drop (pos + length a) c)))
    with 0 by lia.
  replace (pos + length a + length b - (pos + length a)) with (length b) by lia.
  rewrite drop_drop. simpl. rewrite <- !app_assoc. do 3 f_equal. f_equal. lia.
Qed.

Lemma write_err_None (o : WriteFault) (b : list byte) :
  write_err o = None → written o b = length b.
Proof. by destruct o as [[m e]|]. Qed.

Lemma plain_stream_length `{Crypto} key chunks :
  ∀ N off, length (plain_stream key chunks N off)
           = length (take (Z.to_nat N) (concat chunks)).
Proof.
  induction chunks as [|c rest IH]; intros N off; simpl.
  - destruct (N <=? 0)%Z; by rewrite take_nil.
  - destruct (Z.leb_spec N 0).
    { replace (Z.to_nat N) with 0 by lia. by rewrite take_0. }
    rewrite length_app, KeyStream_length, IH, take_concat_length.
    do 3 f_equal. lia.
Qed.

Lemma readTee_success `{Crypto} key faults chunks fin :
  ∀ N off k acc d dk d' dk' ev bytes c,
    readTee key faults chunks fin N off k acc d dk = (d', dk', ev, inr bytes) →
    dk !! f_name (d_file d) = Some c →
    f_pos (d_file d) ≤ length c →
    (Z.of_N (received d) + Z.max 0 N < 2 ^ 64)%Z →
    let plain := plain_stream key chunks N off in
    dk' !! f_name (d_file d) = Some (splice c (f_pos (d_file d)) plain) ∧
    f_pos (d_file d') = f_pos (d_file d) + length plain ∧
    received d' = (received d + N.of_nat (length plain))%N.
Proof.
  induction chunks as [|c0 rest IH];
    intros N off k acc d dk d' dk' ev bytes c Hrun Hc Hpos Hrcv;
    [rewrite readTee_nil in Hrun | rewrite readTee_cons in Hrun; cbv zeta in Hrun];
    cbv zeta; simpl plain_stream.
  - assert (d' = d ∧ dk' = dk) as [-> ->]
      by (destruct (N <=? 0)%Z; [|destruct fin]; by simplify_eq).
    destruct (N <=? 0)%Z; rewrite splice_nil by done; simpl;
      (split; [done|split; [lia|lia]]).
  - destruct (Z.leb_spec N 0).
    { injection Hrun as <- <- <- <-. rewrite splice_nil by done. simpl.
      split; [done|split; [lia|lia]]. }
    destruct (take (Z.to_nat N) c0) as [|b p] eqn:Hp.
    { eapply IH in Hrun as (Hdk & Hpos' & Hrcv'); [|done..].
      assert (KeyStream key off [] = []) as ->
        by (apply nil_length_inv; by rewrite KeyStream_length).
      simpl. by rewrite Z.sub_0_r, Nat.add_0_r in *. }
    assert (length (b :: p) ≤ Z.to_nat N) as Hlen
      by (rewrite <- Hp, length_take; lia).
    destruct (keyWriter_Write key off d dk (b :: p) (faults k))
      as [[[[d1 dk1] ev1] n] err] eqn:HW.
    apply Download_Write_inv in HW as (HF & Hrcv1 & _ & Hn & Herr & Hs1).
    destruct err as [e|]; [done|].
    rewrite write_err_None, KeyStream_length in Hn by done. subst n.
    rewrite wrap64_small in Hrcv1 by lia.
    assert (f_name (d_file d1) = f_name (d_file d)) as Hname by apply Hs1.
    pose proof (File_Write_pos _ _ _ _ _ _ _ _ HF) as Hpos1.
    set (q := KeyStream key off (b :: p)) in *.
    assert (length q = length (b :: p)) as Hq by apply KeyStream_length.
    assert (dk1 !! f_name (d_file d) = Some (splice c (f_pos (d_file d)) q))
      as Hc1.
    { unfold File_Write in HF. injection HF as _ <- _ _.
      rewrite Hc, lookup_insert_eq, write_err_None by done.
      by rewrite take_ge by lia. }
    destruct (readTee key faults rest fin _ _ _ _ d1 dk1)
      as [[[d2 dk2] ev2] r2] eqn:Hrest.
    injection Hrun as <- <- <- ->.
    eapply IH in Hrest as (Hdk2 & Hpos2 & Hrcv2).
    + rewrite Hname in Hdk2. rewrite Hdk2, Hpos2, Hrcv2, Hpos1, Hrcv1.
      rewrite length_app, Hq, <- splice_app, Hq.
      split; [done|]. split; lia.
    + by rewrite Hname.
    + rewrite Hpos1. pose proof (splice_length c (f_pos (d_file d)) q). lia.
    + rewrite Hrcv1. lia.
Qed.

Lemma downloadPiece_success `{Crypto} (d : Download) (dk : Disk) piece h
    d' dk' ev c :
  downloadPiece d dk piece h = (d', dk', ev, None) →
  dk !! f_name (d_file d) = Some c →
  f_pos (d_file d) = 0 → received d = 0%N →
  delivered piece h c d' dk'.
Proof.
  unfold downloadPiece. intros Hrun Hc Hpos Hrcv.
  destruct (dial h); [done|]. destruct (send_tag h); [done|].
  destruct (send_id h); [done|].
  destruct (readTee _ _ _ _ _ _ _ _ d dk) as [[[d1 dk1] ev1] r] eqn:Hread.
  destruct r as [e|bytes]; [done|].
  destruct (decide _) as [Hroot|]; [|done]. injection Hrun as <- <- <-.
  pose proof (readTee_bytes _ _ _ _ _ _ _ _ _ _ _ _ _ _ Hread) as ->.
  pose proof (readTee_frame _ _ _ _ _ _ _ _ _ _ _ _ _ _ Hread) as (Hs & _).
  pose proof (toInt64_lt (FileSize (Contract piece))) as Hlt.
  eapply readTee_success in Hread as (Hdk & Hp & Hr);
    [|done|rewrite Hpos; lia|rewrite Hrcv; simpl; lia].
  rewrite Hpos in *. rewrite Hrcv in Hr.
  assert (f_name (d_file d1) = f_name (d_file d)) as Hname by apply Hs.
  unfold delivered. cbv zeta. rewrite Hname. fold (piece_plain piece h) in *.
  split; [done|]. split; [apply plain_stream_length|].
  split; [by rewrite Hdk|]. by rewrite Hp, Hr.
Qed.

(** X3. With a disk that takes every write, and a stream that ends
    without an error or holds at least the declared size, an attempt
    returns nil exactly when the host can be dialled, both request objects
    can be sent and the digest of the bytes on the wire is the
    contract's. *)
Theorem downloadPiece_succeeds_iff `{Crypto} (d : Download) (dk : Disk)
    (piece : filePiece) (h : HostScript) :
  (∀ k, disk_write h k = None) →
  stream_end h = None ∨
  (toInt64 (FileSize (Contract piece)) ≤ Z.of_nat (length (concat (stream h))))%Z →
  (downloadPiece d dk piece h).2 = None ↔
  dial h = None ∧ send_tag h = None ∧ send_id h = None ∧
  MerkleRoot (wire_bytes piece h) = FileMerkleRoot (Contract piece).
Proof.
  intros Hdisk Hend. unfold downloadPiece.
  destruct (dial h); [by split; [|intros (? & _)]|].
  destruct (send_tag h); [by split; [|intros (_ & ? & _)]|].
  destruct (send_id h); [by split; [|intros (_ & _ & ? & _)]|].
  assert (∀ chunks N off k acc d dk,
    stream_end h = None ∨ (N ≤ Z.of_nat (length (concat chunks)))%Z →
    (readTee (EncryptionKey piece) (disk_write h) chunks (stream_end h)
       N off k acc d dk).2 = inr (acc ++ take (Z.to_nat N) (concat chunks)))
    as Hread.
  { clear d dk Hend.
    induction chunks as [|c rest IH]; intros N off k acc d dk Hend;
      [rewrite readTee_nil | rewrite readTee_cons; cbv zeta]; simpl concat.
    - rewrite take_nil, app_nil_r. destruct (Z.leb_spec N 0); [done|].
      destruct Hend as [->|Hend]; [done|]. simpl in Hend. lia.
    - destruct (Z.leb_spec N 0).
      { replace (Z.to_nat N) with 0 by lia. by rewrite take_0, app_nil_r. }
      rewrite take_app.
      assert (length (take (Z.to_nat N) c) ≤ length c) as Hlen
        by (rewrite length_take; lia).
      assert (length (take (Z.to_nat N) c) = Z.to_nat N `min` length c) as Hmin
        by apply length_take.
      destruct (take (Z.to_nat N) c) as [|b p] eqn:Hp.
      + simpl in Hmin. assert (length c = 0) as Hc by lia.
        rewrite Hc, Nat.sub_0_r, IH; [done|].
        destruct Hend as [?|Hend]; [by left|right].
        simpl in Hend. rewrite length_app, Hc in Hend. simpl in Hend. lia.
      + unfold keyWriter_Write, Download_Write, File_Write. rewrite Hdisk.
        simpl write_err. cbv iota.
        match goal with
        | |- context [readTee _ _ rest _ ?N' ?o ?k' ?a ?d1 ?dk1] =>
            specialize (IH N' o k' a d1 dk1);
            destruct (readTee _ _ rest _ N' o k' a d1 dk1)
              as [[[d2 dk2] ev2] r2]
        end.
        simpl in *. rewrite IH.
        * replace (Z.to_nat (N - Z.of_nat (S (length p))))
            with (Z.to_nat N - length c) by lia.
          by rewrite <- (assoc_L (++)).
        * destruct Hend as [?|Hend]; [by left|right].
          simpl in Hend. rewrite length_app in Hend. simpl in *. lia. }
  specialize (Hread (stream h) (toInt64 (FileSize (Contract piece))) 0 0 [] d dk
                Hend).
  destruct (readTee _ _ _ _ _ _ _ _ d dk) as [[[d1 dk1] ev1] r].
  simpl in Hread. subst r. fold (wire_bytes piece h).
  destruct (decide _); simpl; [by split|]. split; [done|]. by intros (_ & _ & _ & ?).
Qed.

Lemma downloadPiece_succeeds_iff_witness :
  let piece := ex_piece true 2 195 in
  (∀ k, disk_write host_trickles k = None) ∧
  (stream_end host_trickles = None ∨
   (toInt64 (FileSize (Contract piece))
    ≤ Z.of_nat (length (concat (stream host_trickles))))%Z) ∧
  (downloadPiece ex_session ex_disk piece host_trickles).2 = None.
Proof.
  intros piece.
  assert (∀ k, disk_write host_trickles k = None) as Hdisk by reflexivity.
  split; [exact Hdisk|]. split; [by left|].
  apply (downloadPiece_succeeds_iff ex_session ex_disk piece host_trickles
           Hdisk (or_introl eq_refl)).
  repeat split; reflexivity.
Defined.

Lemma delivered_finished `{Crypto} piece h c (d : Download) (dk : Disk) :
  delivered piece h c d dk → delivered piece h c (finished d) dk.
Proof. done. Qed.

Lemma tryPieces_delivers `{Crypto} env i ps :
  ∀ j d dk d' dk' ev,
    tryPieces env i j ps d dk = (d', dk', ev, true) →
    received d = 0%N → f_pos (d_file d) = 0 →
    is_Some (dk !! f_name (d_file d)) →
    ∃ m p c, ps !! m = Some p ∧ last (attempts ev) = Some (i, j + m) ∧
             delivered p (host env i (j + m)) c d' dk'.
Proof.
  induction ps as [|piece rest IH]; intros j d dk d' dk' ev Hrun Hrcv Hpos [c Hc];
    [done|].
  rewrite tryPieces_cons in Hrun. cbv zeta in Hrun.
  destruct (downloadPiece d dk piece (host env i j))
    as [[[d1 dk1] ev1] err] eqn:Hpiece.
  pose proof (downloadPiece_frame _ _ _ _ _ _ _ _ Hpiece) as (Hs1 & Hdk1 & Hev1).
  pose proof (received_only _ Hev1) as (Hatt1 & _ & _).
  destruct err as [e|].
  - destruct (tryPieces env i (S j) rest _ dk1) as [[[d4 dk4] ev4] ok4] eqn:Hrest.
    injection Hrun as <- <- <- ->.
    apply IH in Hrest as (m & p & c' & Hm & Hlast & Hdel); [|done|done|].
    + exists (S m), p, c'. replace (j + S m) with (S j + m) by lia.
      split; [done|]. split; [|done].
      simpl. rewrite attempts_app, Hatt1. simpl. by rewrite last_cons, Hlast.
    + simpl. destruct Hs1 as (_ & _ & _ & _ & _ & _ & -> & _).
      apply Hdk1. by rewrite Hc.
  - injection Hrun as <- <- <-.
    exists 0, piece, c. rewrite Nat.add_0_r.
    split; [done|]. split.
    + simpl. by rewrite attempts_app, Hatt1.
    + apply delivered_finished. by eapply downloadPiece_success.
Qed.

Lemma passes_delivers `{Crypto} env n :
  ∀ i0 d dk d' dk' ev,
    passes n i0 env d dk = (d', dk', ev, true) →
    received d = 0%N → f_pos (d_file d) = 0 →
    is_Some (dk !! f_name (d_file d)) →
    ∃ i m p c, i0 ≤ i < i0 + n ∧ pieces d !! m = Some p ∧
               last (attempts ev) = Some (i, m) ∧
               delivered p (host env i m) c d' dk'.
Proof.
  induction n as [|n IH]; intros i0 d dk d' dk' ev Hrun Hrcv Hpos Hc; [done|].
  rewrite passes_S in Hrun.
  destruct (pieces_bounded (pieces d)) as [hi Hhi].
  destruct (tryPieces env i0 0 (pieces d) d dk) as [[[d1 dk1] ev1] ok1] eqn:Hpass.
  destruct ok1.
  { injection Hrun as <- <- <-.
    apply tryPieces_delivers in Hpass as (m & p & c & Hm & Hlast & Hdel);
      [|done..].
    exists i0, m, p, c. split; [lia|]. done. }
  pose proof (tryPieces_spec env i0 hi _ _ _ _ _ _ _ _ Hpass Hrcv Hpos Hhi)
    as (Hdk1 & _ & _ & Hs1 & Hr1 & Hp1 & _).
  destruct (passes n (S i0) env d1 dk1) as [[[d2 dk2] ev2] ok2] eqn:Hrest.
  injection Hrun as <- <- <- ->.
  assert (pieces d1 = pieces d) as Hps by apply Hs1.
  assert (f_name (d_file d1) = f_name (d_file d)) as Hname by apply Hs1.
  apply IH in Hrest as (i & m & p & c & Hi & Hm & Hlast & Hdel);
    [|done|done|by rewrite Hname; apply Hdk1].
  exists i, m, p, c. split; [lia|]. split; [by rewrite <- Hps|].
  split; [|done].
  rewrite attempts_app. simpl. by rewrite last_app, Hlast.
Qed.

(** X4. When [Renter.Download] returns nil, the last attempt made is the
    one that succeeded, on an active piece of the file; the digest of the
    bytes that its host put on the wire is the one recorded in that
    piece's contract; the destination file begins with the decryption of
    those bytes (what follows, if anything, is left over from earlier
    attempts: the file is never truncated); and the queued session is
    complete with [Received] at the number of those bytes. *)
Theorem Download_success_delivers `{Crypto} (r : Renter) (st : list Download)
    (dk : Disk) (env : Env) (nick dest : string) :
  let '(_, st', dk', ev, res) := Renter_Download r st dk env nick dest in
  res = Returned None →
  ∃ f i j p c d,
    files r !! nick = Some f ∧ i < downloadAttempts ∧
    activePieces (Pieces f) !! j = Some p ∧ Active p = true ∧
    last (attempts ev) = Some (i, j) ∧
    MerkleRoot (wire_bytes p (host env i j)) = FileMerkleRoot (Contract p) ∧
    let plain := piece_plain p (host env i j) in
    length plain = length (wire_bytes p (host env i j)) ∧
    dk' !! dest = Some (plain ++ drop (length plain) c) ∧
    st' !! length st = Some d ∧
    Download_Complete d = true ∧
    Download_Received d = N.of_nat (length plain).
Proof.
  destruct (Renter_Download_cases r st dk env nick dest)
    as [(r' & dk' & e & -> & _)|(f & p0 & d0 & dk0 & Hf & Hp0 & Hact & -> & -> & Hnew)];
    [done|].
  rewrite (Renter_Download_constructed _ _ _ _ _ _ _ _ _ Hf Hnew).
  set (d0 := mkDownload _ _ _ _ _ _ _ _) in *.
  destruct (pieces_bounded (pieces d0)) as [hi Hhi].
  destruct (passes downloadAttempts 0 env d0 (<[dest:=[]]> dk))
    as [[[d1 dk1] ev1] ok] eqn:Hrun.
  destruct ok; [|done]. intros _.
  pose proof (passes_spec env hi _ _ _ _ _ _ _ _ Hrun eq_refl eq_refl Hhi)
    as (_ & _ & _ & Hs & _).
  apply passes_delivers in Hrun
    as (i & j & p & c & Hi & Hj & Hlast & Hroot & Hlen & Hdk & _ & Hrcv);
    [|done|done|by simpl; rewrite lookup_insert_eq].
  assert (f_name (d_file d1) = dest) as Hname by apply Hs.
  assert (complete d1 = true) as Hcomplete by apply Hs.
  exists f, i, j, p, c, d1.
  split; [done|]. split; [lia|]. split; [done|].
  split.
  { simpl in Hj. rewrite activePieces_filter in Hj.
    apply list_elem_of_lookup_2 in Hj. by apply list_elem_of_filter in Hj as [? _]. }
  split; [done|]. split; [done|]. cbv zeta.
  split; [done|]. split; [by rewrite <- Hname|].
  split; [by apply list_lookup_middle|]. done.
Qed.

Lemma Download_success_delivers_witness :
  let ps := [ex_piece true 2 195; ex_piece true 2 195; ex_piece true 2 195] in
  let '(_, _, dk', _, res) :=
    Renter_Download (ex_renter ps) [] ∅ env_first_refuses
      "report.pdf"%string "out"%string in
  res = Returned None ∧
  ∃ c, dk' !! "out"%string = Some (["b"; "c"]%byte ++ drop 2 c).
Proof.
  intros ps.
  pose proof (Download_success_delivers (ex_renter ps) [] ∅ env_first_refuses
    "report.pdf"%string "out"%string) as HT.
  destruct (Renter_Download (ex_renter ps) [] ∅ env_first_refuses
      "report.pdf"%string "out"%string) as [[[[r' st'] dk'] ev] res] eqn:Hrun.
  pose proof (f_equal (λ x, x.2) Hrun) as Hres.
  pose proof (f_equal (λ x, x.1.2) Hrun) as Hev.
  vm_compute in Hres, Hev. subst res ev.
  split; [reflexivity|].
  destruct (HT eq_refl)
    as (f & i & j & p & c & d & Hf & _ & Hj & _ & Hlast & _ & _ & Hdk & _).
  injection Hf as <-. injection Hlast as <- <-. injection Hj as <-.
  exists c. exact Hdk.
Defined.

(** ** A call of [Renter.Download]: what it leaves alone *)

Lemma downloadPiece_other_paths `{Crypto} (d : Download) (dk : Disk) piece h
    d' dk' ev err path :
  downloadPiece d dk piece h = (d', dk', ev, err) →
  path ≠ f_name (d_file d) → dk' !! path = dk !! path.
Proof.
  unfold downloadPiece. intros Hrun Hne.
  destruct (dial h); [by injection Hrun as <- <- <- <-|].
  destruct (send_tag h); [by injection Hrun as <- <- <- <-|].
  destruct (send_id h); [by injection Hrun as <- <- <- <-|].
  destruct (readTee _ _ _ _ _ _ _ _ d dk) as [[[d1 dk1] ev1] r] eqn:Hread.
  apply readTee_offset in Hread as [_ Hdk].
  destruct r as [e|bytes]; [injection Hrun as <- <- <- <-; by apply Hdk|].
  destruct (decide _); injection Hrun as <- <- <- <-; by apply Hdk.
Qed.

Lemma tryPieces_other_paths `{Crypto} env i ps path :
  ∀ j d dk d' dk' ev ok,
    tryPieces env i j ps d dk = (d', dk', ev, ok) →
    path ≠ f_name (d_file d) →
    dk' !! path = dk !! path ∧ f_name (d_file d') = f_name (d_file d).
Proof.
  induction ps as [|piece rest IH]; intros j d dk d' dk' ev ok Hrun Hne.
  { by injection Hrun as <- <- <- <-. }
  rewrite tryPieces_cons in Hrun. cbv zeta in Hrun.
  destruct (downloadPiece d dk piece (host env i j))
    as [[[d1 dk1] ev1] err] eqn:Hpiece.
  pose proof (downloadPiece_other_paths _ _ _ _ _ _ _ _ _ Hpiece Hne) as Hdk1.
  pose proof (downloadPiece_frame _ _ _ _ _ _ _ _ Hpiece) as (Hs1 & _ & _).
  assert (f_name (d_file d1) = f_name (d_file d)) as Hname by apply Hs1.
  destruct err as [e|].
  - destruct (tryPieces env i (S j) rest _ dk1) as [[[d4 dk4] ev4] ok4] eqn:Hrest.
    injection Hrun as <- <- <- <-.
    apply IH in Hrest as [Hdk4 Hn4]; [|by simpl; rewrite Hname].
    split; [by rewrite Hdk4|]. by rewrite Hn4.
  - by injection Hrun as <- <- <- <-.
Qed.

Lemma passes_other_paths `{Crypto} env n path :
  ∀ i0 d dk d' dk' ev ok,
    passes n i0 env d dk = (d', dk', ev, ok) →
    path ≠ f_name (d_file d) →
    dk' !! path = dk !! path ∧ f_name (d_file d') = f_name (d_file d).
Proof.
  induction n as [|n IH]; intros i0 d dk d' dk' ev ok Hrun Hne.
  { by injection Hrun as <- <- <- <-. }
  rewrite passes_S in Hrun.
  destruct (tryPieces env i0 0 (pieces d) d dk) as [[[d1 dk1] ev1] ok1] eqn:Hpass.
  apply (tryPieces_other_paths _ _ _ path) in Hpass as [Hdk1 Hn1]; [|done].
  destruct ok1; [by injection Hrun as <- <- <- <-|].
  destruct (passes n (S i0) env d1 dk1) as [[[d2 dk2] ev2] ok2] eqn:Hrest.
  injection Hrun as <- <- <- <-.
  apply IH in Hrest as [Hdk2 Hn2]; [|by rewrite Hn1].
  split; [by rewrite Hdk2|]. by rewrite Hn2.
Qed.

Lemma newDownload_disk `{Crypto} f dest env (dk dk0 : Disk) res :
  newDownload f dest env dk = (dk0, res) →
  (∀ path, path ≠ dest → dk0 !! path = dk !! path) ∧
  (∀ d, res = NewOk d → f_name (d_file d) = dest).
Proof.
  unfold newDownload, os_Create.
  destruct (create_fail env); [by intros [= <- <-]|].
  assert (∀ path, path ≠ dest → <[dest:=[]]> dk !! path = dk !! path) as Hdk
    by (intros path Hne; by rewrite lookup_insert_ne).
  destruct (decide _); [by intros [= <- <-]|].
  destruct (Pieces f !! 0); intros [= <- <-]; (split; [done|]); [|done].
  by intros d [= <-].
Qed.

(** X5. [Renter.Download] releases the lock [r.mu] exactly when it has
    constructed and queued a session: when the nickname is unknown, or
    [newDownload] fails, it returns with the lock still held. *)
Theorem Download_lock `{Crypto} (r : Renter) (st : list Download)
    (dk : Disk) (env : Env) (nick dest : string) :
  mu (Renter_Download r st dk env nick dest).1.1.1.1
  = negb (constructs r dk env nick dest).
Proof.
  unfold constructs.
  destruct (files r !! nick) as [f|] eqn:Hf;
    [|by rewrite Renter_Download_unknown].
  destruct (newDownload f dest env dk) as [dk0 [d0|e|]] eqn:Hnew; simpl.
  - rewrite (Renter_Download_constructed _ _ _ _ _ _ _ _ _ Hf Hnew).
    destruct (passes downloadAttempts 0 env d0 dk0) as [[[d1 dk1] ev1] ok].
    by destruct ok.
  - by rewrite (Renter_Download_not_constructed _ _ _ _ _ _ _ _ _ Hf Hnew).
  - unfold Renter_Download. simpl. by rewrite Hf, Hnew.
Qed.

(** X6. A call of [Renter.Download] changes nothing but its own session
    and the destination: the catalogue of files is the same, the sessions
    already in the store are the same, and every file of the disk other
    than the destination is as it was. *)
Theorem Download_frame `{Crypto} (r : Renter) (st : list Download)
    (dk : Disk) (env : Env) (nick dest : string) :
  let '(r', st', dk', _, _) := Renter_Download r st dk env nick dest in
  files r' = files r ∧
  st `prefix_of` st' ∧
  ∀ path, path ≠ dest → dk' !! path = dk !! path.
Proof.
  destruct (files r !! nick) as [f|] eqn:Hf.
  2:{ rewrite Renter_Download_unknown by done. by repeat split. }
  destruct (newDownload f dest env dk) as [dk0 res0] eqn:Hnew.
  pose proof (newDownload_disk _ _ _ _ _ _ Hnew) as [Hdk0 Hname].
  destruct res0 as [d0|e0|].
  - rewrite (Renter_Download_constructed _ _ _ _ _ _ _ _ _ Hf Hnew).
    specialize (Hname d0 eq_refl).
    destruct (passes downloadAttempts 0 env d0 dk0)
      as [[[d1 dk1] ev1] ok] eqn:Hrun.
    assert (∀ path, path ≠ dest → dk1 !! path = dk !! path) as Hdk.
    { intros path Hne.
      destruct (passes_other_paths _ _ path _ _ _ _ _ _ _ Hrun) as [Heq _];
        [by rewrite Hname|].
      rewrite Heq. by apply Hdk0. }
    destruct ok; (split; [done|]); (split; [by apply prefix_app_r|]);
      [done|].
    intros path Hne. unfold os_Remove. rewrite lookup_delete_ne by done.
    by apply Hdk.
  - rewrite (Renter_Download_not_constructed _ _ _ _ _ _ _ _ _ Hf Hnew).
    by repeat split.
  - unfold Renter_Download. simpl. rewrite Hf, Hnew. by repeat split.
Qed.

Lemma Download_frame_witness :
  let dk : Disk := {["notes.txt"%string := [ex_a]]} in
  let '(_, _, dk', _, _) :=
    Renter_Download (ex_renter [ex_piece true 2 7]) [] dk env_trickle
      "report.pdf"%string "out"%string in
  "notes.txt"%string ≠ "out"%string ∧
  dk' !! "notes.txt"%string = Some [ex_a].
Proof.
  intros dk.
  pose proof (Download_frame (ex_renter [ex_piece true 2 7]) [] dk env_trickle
    "report.pdf"%string "out"%string) as HT.
  destruct (Renter_Download (ex_renter [ex_piece true 2 7]) [] dk env_trickle
      "report.pdf"%string "out"%string) as [[[[r' st'] dk'] ev] res].
  destruct HT as (_ & _ & Hdk).
  assert ("notes.txt"%string ≠ "out"%string) as Hne by discriminate.
  split; [exact Hne|]. rewrite (Hdk _ Hne). reflexivity.
Defined.

(** X7. The errors of [Renter.Download] and their order: an unknown
    nickname is reported before anything is touched; otherwise a failure
    of [os.Create] comes first, and the check for active pieces only
    after the destination has been created. Only when there is an active
    piece does the loop run, and then the call returns nil or the one
    exhaustion error: the error of a piece attempt never reaches the
    caller. *)
Theorem Download_errors `{Crypto} (r : Renter) (st : list Download)
    (dk : Disk) (env : Env) (nick dest : string) :
  let '(_, _, _, ev, res) := Renter_Download r st dk env nick dest in
  match files r !! nick with
  | None =>
      res = Returned (Some "no file of that nickname"%string) ∧ ev = []
  | Some f =>
      match create_fail env with
      | Some e => res = Returned (Some e) ∧ ev = []
      | None =>
          if decide (activePieces (Pieces f) = []) then
            res = Returned (Some "no active pieces"%string) ∧ ev = []
          else
            res = Returned None ∨
            res = Returned (Some "could not download any file pieces"%string)
      end
  end.
Proof.
  destruct (files r !! nick) as [f|] eqn:Hf;
    [|by rewrite Renter_Download_unknown].
  destruct (create_fail env) as [e|] eqn:Hc.
  { by rewrite (Renter_Download_not_constructed _ _ _ _ _ _ _ _ _ Hf
                   (newDownload_create_fails f dest env dk e Hc)). }
  destruct (decide (activePieces (Pieces f) = [])) as [Hnil|Hact].
  { by rewrite (Renter_Download_not_constructed _ _ _ _ _ _ _ _ _ Hf
                   (newDownload_no_active f dest env dk Hc Hnil)). }
  destruct (newDownload_ok f dest env dk Hc Hact) as (p0 & Hp0 & Hnew).
  rewrite (Renter_Download_constructed _ _ _ _ _ _ _ _ _ Hf Hnew).
  destruct (passes _ _ _ _ _) as [[[d1 dk1] ev1] ok].
  destruct ok; [by left|by right].
Qed.

(** X8. When a session is constructed it is stored at the next free index
    with the destination, the name of the file, the start time and the
    active pieces it was made with; when the call returns its handle is
    closed, [Complete] is true exactly when the call returned nil, and
    the destination file exists exactly then; after a failure [Received]
    is back at zero. *)
Theorem Download_session_outcome `{Crypto} (r : Renter) (st : list Download)
    (dk : Disk) (env : Env) (nick dest : string) (f : file) :
  files r !! nick = Some f →
  constructs r dk env nick dest = true →
  let '(_, st', dk', _, res) := Renter_Download r st dk env nick dest in
  ∃ d, st' = st ++ [d] ∧
    Download_Destination d = dest ∧ Download_Nickname d = Name f ∧
    Download_StartTime d = now env ∧ pieces d = activePieces (Pieces f) ∧
    f_open (d_file d) = false ∧
    (Download_Complete d = true ↔ res = Returned None) ∧
    (is_Some (dk' !! dest) ↔ res = Returned None) ∧
    (res ≠ Returned None → Download_Received d = 0%N).
Proof.
  intros Hf Hcon. unfold constructs in Hcon. rewrite Hf in Hcon.
  destruct (newDownload f dest env dk) as [dk0 [d0|e|]] eqn:Hnew; [|done..].
  clear Hcon.
  destruct (Renter_Download_cases r st dk env nick dest)
    as [(r' & dk' & e & Hrun & _)|(f' & p0 & d0' & dk0' & Hf' & Hp0 & Hact & -> & -> & Hnew')].
  { rewrite (Renter_Download_constructed _ _ _ _ _ _ _ _ _ Hf Hnew) in Hrun.
    destruct (passes downloadAttempts 0 env d0 dk0) as [[[d1 dk1] ev1] ok].
    destruct ok; injection Hrun as _ Hst _ _ _;
      apply (f_equal length) in Hst; rewrite length_app in Hst;
      simpl in Hst; lia. }
  assert (f' = f) as -> by congruence.
  rewrite Hnew in Hnew'. injection Hnew' as -> ->.
  rewrite (Renter_Download_constructed _ _ _ _ _ _ _ _ _ Hf Hnew).
  set (d0 := mkDownload _ _ _ _ _ _ _ _) in *.
  destruct (pieces_bounded (pieces d0)) as [hi Hhi].
  destruct (passes downloadAttempts 0 env d0 (<[dest:=[]]> dk))
    as [[[d1 dk1] ev1] ok] eqn:Hrun.
  apply (passes_spec env hi) in Hrun as (Hdk & _ & _ & Hok); [|done..].
  destruct ok.
  - destruct Hok as [(Ht & Hcomp & _ & Hdest & Hnick & Hps & _ & Hopen) _].
    exists d1. split; [done|]. repeat split; try done.
    + intros _. apply Hdk. by rewrite lookup_insert_eq.
  - destruct Hok as ((Ht & Hcomp & _ & Hdest & Hnick & Hps & _ & Hopen) & Hr & _).
    eexists. split; [done|]. repeat split; try done.
    + unfold Download_Complete. simpl. by rewrite Hcomp.
    + unfold os_Remove. rewrite lookup_delete_eq. by intros [? ?].
Qed.

Lemma Download_session_outcome_witness :
  let ps := [ex_piece true 2 7] in
  let '(_, st', _, _, res) :=
    Renter_Download (ex_renter ps) [] ∅ env_trickle
      "report.pdf"%string "out"%string in
  constructs (ex_renter ps) ∅ env_trickle "report.pdf"%string "out"%string
  = true ∧
  ∃ d, st' = [d] ∧ (Download_Complete d = true ↔ res = Returned None).
Proof.
  intros ps.
  assert (constructs (ex_renter ps) ∅ env_trickle "report.pdf"%string
            "out"%string = true) as Hcon by (vm_compute; reflexivity).
  pose proof (Download_session_outcome (ex_renter ps) [] ∅ env_trickle
    "report.pdf"%string "out"%string _ eq_refl Hcon) as HT.
  destruct (Renter_Download (ex_renter ps) [] ∅ env_trickle
      "report.pdf"%string "out"%string) as [[[[r' st'] dk'] ev] res].
  destruct HT as (d & Hst & _ & _ & _ & _ & _ & Hiff & _).
  split; [exact Hcon|]. exists d. split; [exact Hst|exact Hiff].
Defined.

(** ** The schedule of a call *)

Lemma pass_grid_elem (i0 k n a b : nat) :
  (a, b) ∈ pass_grid i0 k n ↔ i0 ≤ a < i0 + k ∧ b < n.
Proof.
  unfold pass_grid. rewrite list_elem_of_bind. split.
  - intros (i & Hin & Hi). apply list_elem_of_fmap in Hin as (j & [= -> ->] & Hj).
    apply elem_of_seq in Hi, Hj. lia.
  - intros [Ha Hb]. exists a. split.
    + apply list_elem_of_fmap. exists b. split; [done|]. apply elem_of_seq. lia.
    + apply elem_of_seq. lia.
Qed.

Lemma pass_grid_NoDup (i0 k n : nat) : NoDup (pass_grid i0 k n).
Proof.
  revert i0. induction k as [|k IH]; intros i0; [constructor|].
  rewrite pass_grid_S. apply NoDup_app. split; [|split; [|apply IH]].
  - apply NoDup_fmap_2; [by intros ?? [= ->]|apply NoDup_seq].
  - intros [a b] Hin Hin'.
    apply list_elem_of_fmap in Hin as (j & [= -> ->] & _).
    apply pass_grid_elem in Hin'. lia.
Qed.

Lemma pass_grid_length (i0 k n : nat) : length (pass_grid i0 k n) = k * n.
Proof.
  revert i0. induction k as [|k IH]; intros i0; [done|].
  rewrite pass_grid_S, length_app, length_fmap, length_seq, IH. lia.
Qed.

Lemma tryPieces_attempts `{Crypto} env i ps :
  ∀ j d dk d' dk' ev ok,
    tryPieces env i j ps d dk = (d', dk', ev, ok) →
    attempts ev `prefix_of` (pair i <$> seq j (length ps)) ∧ sleeps ev = [] ∧
    (ok = false → attempts ev = pair i <$> seq j (length ps)).
Proof.
  induction ps as [|piece rest IH]; intros j d dk d' dk' ev ok Hrun.
  { by injection Hrun as <- <- <- <-. }
  rewrite tryPieces_cons in Hrun. cbv zeta in Hrun.
  destruct (downloadPiece d dk piece (host env i j))
    as [[[d1 dk1] ev1] err] eqn:Hpiece.
  pose proof (downloadPiece_frame _ _ _ _ _ _ _ _ Hpiece) as (_ & _ & Hev1).
  pose proof (received_only _ Hev1) as (Hatt1 & _ & Hsl1).
  destruct err as [e|].
  - destruct (tryPieces env i (S j) rest _ dk1) as [[[d4 dk4] ev4] ok4] eqn:Hrest.
    injection Hrun as <- <- <- <-.
    apply IH in Hrest as (Hpre & Hsl & Hall).
    simpl. rewrite attempts_app, sleeps_app, Hatt1, Hsl1. simpl.
    split; [by apply prefix_cons|]. split; [done|].
    intros Hok. by rewrite Hall.
  - injection Hrun as <- <- <- <-.
    simpl. rewrite attempts_app, sleeps_app, Hatt1, Hsl1. simpl.
    split; [|done]. apply prefix_cons, prefix_nil.
Qed.

Lemma tryPieces_pieces `{Crypto} env i ps :
  ∀ j d dk d' dk' ev ok,
    tryPieces env i j ps d dk = (d', dk', ev, ok) → pieces d' = pieces d.
Proof.
  induction ps as [|piece rest IH]; intros j d dk d' dk' ev ok Hrun.
  { by injection Hrun as <- _ _ _. }
  rewrite tryPieces_cons in Hrun. cbv zeta in Hrun.
  destruct (downloadPiece d dk piece (host env i j))
    as [[[d1 dk1] ev1] err] eqn:Hpiece.
  pose proof (downloadPiece_frame _ _ _ _ _ _ _ _ Hpiece) as (Hs & _ & _).
  assert (pieces d1 = pieces d) as Hps by apply Hs.
  destruct err as [e|]; [|by injection Hrun as <- _ _ _].
  destruct (tryPieces env i (S j) rest _ dk1) as [[[d4 dk4] ev4] ok4] eqn:Hrest.
  injection Hrun as <- _ _ _. by apply IH in Hrest as ->.
Qed.

Lemma passes_attempts `{Crypto} env n :
  ∀ i0 d dk d' dk' ev ok,
    passes n i0 env d dk = (d', dk', ev, ok) →
    attempts ev `prefix_of` pass_grid i0 n (length (pieces d)) ∧
    ∃ k, k ≤ n ∧
         sleeps ev = (λ i, backoff i (rand_byte env i)) <$> seq i0 k.
Proof.
  induction n as [|n IH]; intros i0 d dk d' dk' ev ok Hrun.
  { injection Hrun as <- <- <- <-. split; [done|]. by exists 0. }
  rewrite passes_S in Hrun.
  destruct (tryPieces env i0 0 (pieces d) d dk) as [[[d1 dk1] ev1] ok1] eqn:Hpass.
  pose proof (tryPieces_pieces _ _ _ _ _ _ _ _ _ _ Hpass) as Hps.
  apply tryPieces_attempts in Hpass as (Hpre & Hsl & Hall).
  rewrite pass_grid_S.
  destruct ok1.
  { injection Hrun as <- <- <- <-.
    split; [by apply prefix_app_r|]. exists 0. split; [lia|done]. }
  destruct (passes n (S i0) env d1 dk1) as [[[d2 dk2] ev2] ok2] eqn:Hrest.
  injection Hrun as <- <- <- <-.
  apply IH in Hrest as (Hpre2 & k & Hk & Hsl2).
  rewrite attempts_app, sleeps_app. simpl. rewrite Hall, Hsl, Hsl2 by done.
  split; [apply prefix_app; by rewrite <- Hps|].
  exists (S k). split; [lia|done].
Qed.

(** X9. The attempts of a call are an initial part of the schedule
    "pass 0 over all active pieces in order, then pass 1, ..., then
    pass 4": never more than 5 attempts per active piece, never the same
    piece twice in a pass, and only ever active pieces. *)
Theorem Download_attempts_schedule `{Crypto} (r : Renter)
    (st : list Download) (dk : Disk) (env : Env) (nick dest : string)
    (f : file) :
  files r !! nick = Some f →
  let '(_, _, _, ev, _) := Renter_Download r st dk env nick dest in
  let n := length (activePieces (Pieces f)) in
  attempts ev `prefix_of` pass_grid 0 downloadAttempts n ∧
  length (attempts ev) ≤ downloadAttempts * n ∧
  NoDup (attempts ev) ∧
  ∀ i j, (i, j) ∈ attempts ev →
    i < downloadAttempts ∧
    ∃ p, activePieces (Pieces f) !! j = Some p ∧ p ∈ Pieces f ∧
         Active p = true.
Proof.
  intros Hf.
  assert (∀ ev, attempts ev `prefix_of`
                  pass_grid 0 downloadAttempts (length (activePieces (Pieces f))) →
    attempts ev `prefix_of`
      pass_grid 0 downloadAttempts (length (activePieces (Pieces f))) ∧
    length (attempts ev)
    ≤ downloadAttempts * length (activePieces (Pieces f)) ∧
    NoDup (attempts ev) ∧
    ∀ i j, (i, j) ∈ attempts ev →
      i < downloadAttempts ∧
      ∃ p, activePieces (Pieces f) !! j = Some p ∧ p ∈ Pieces f ∧
           Active p = true) as Hmain.
  { intros ev Hpre. split; [done|]. split.
    { rewrite <- pass_grid_length with (i0 := 0). by apply prefix_length. }
    split.
    { destruct Hpre as [tl Htl]. pose proof (pass_grid_NoDup 0 downloadAttempts
        (length (activePieces (Pieces f)))) as Hnd.
      rewrite Htl in Hnd. by apply NoDup_app in Hnd as [? _]. }
    intros i j Hin.
    assert ((i, j) ∈ pass_grid 0 downloadAttempts
              (length (activePieces (Pieces f)))) as Hgrid.
    { destruct Hpre as [tl ->]. apply elem_of_app. by left. }
    apply pass_grid_elem in Hgrid as [Hi Hj]. split; [lia|].
    destruct (lookup_lt_is_Some_2 _ _ Hj) as [p Hp]. exists p. split; [done|].
    apply list_elem_of_lookup_2 in Hp. rewrite activePieces_filter in Hp.
    apply list_elem_of_filter in Hp. tauto. }
  destruct (Renter_Download_cases r st dk env nick dest)
    as [(r' & dk' & e & -> & _)|(f' & p0 & d0 & dk0 & Hf' & Hp0 & Hact & -> & -> & Hnew)].
  { apply Hmain. apply prefix_nil. }
  assert (f' = f) as -> by congruence.
  rewrite (Renter_Download_constructed _ _ _ _ _ _ _ _ _ Hf Hnew).
  set (d0 := mkDownload _ _ _ _ _ _ _ _) in *.
  destruct (passes downloadAttempts 0 env d0 (<[dest:=[]]> dk))
    as [[[d1 dk1] ev1] ok] eqn:Hrun.
  apply passes_attempts in Hrun as [Hpre _].
  destruct ok; apply Hmain; [done|].
  rewrite attempts_app. simpl. by rewrite app_nil_r.
Qed.

Lemma Download_attempts_schedule_witness :
  let ps := [ex_piece true 2 195; ex_piece false 2 195; ex_piece true 2 195] in
  let '(_, _, _, ev, _) :=
    Renter_Download (ex_renter ps) [] ∅ env_first_refuses
      "report.pdf"%string "out"%string in
  attempts ev `prefix_of` pass_grid 0 downloadAttempts 2.
Proof.
  intros ps.
  pose proof (Download_attempts_schedule (ex_renter ps) [] ∅ env_first_refuses
    "report.pdf"%string "out"%string _ eq_refl) as HT.
  destruct (Renter_Download (ex_renter ps) [] ∅ env_first_refuses
      "report.pdf"%string "out"%string) as [[[[r' st'] dk'] ev] res].
  exact (proj1 HT).
Defined.

(** X10. A call sleeps at most 5 times; each sleep lasts between 0 and
    4080 seconds (16 times 255), and together they last at most 7650
    seconds (30 times 255). *)
Theorem Download_sleep_bounds `{Crypto} (r : Renter) (st : list Download)
    (dk : Disk) (env : Env) (nick dest : string) :
  let '(_, _, _, ev, _) := Renter_Download r st dk env nick dest in
  length (sleeps ev) ≤ downloadAttempts ∧
  Forall (λ ns, 0 ≤ ns ≤ 4080 * second)%Z (sleeps ev) ∧
  (0 ≤ foldr Z.add 0 (sleeps ev) ≤ 7650 * second)%Z.
Proof.
  assert (∀ k, k ≤ downloadAttempts →
    let sl := (λ i, backoff i (rand_byte env i)) <$> seq 0 k in
    length sl ≤ downloadAttempts ∧
    Forall (λ ns, 0 ≤ ns ≤ 4080 * second)%Z sl ∧
    (0 ≤ foldr Z.add 0 sl ≤ 7650 * second)%Z) as Hmain.
  { intros k Hk. cbv zeta.
    pose proof (byteZ_range (rand_byte env 0)).
    pose proof (byteZ_range (rand_byte env 1)).
    pose proof (byteZ_range (rand_byte env 2)).
    pose proof (byteZ_range (rand_byte env 3)).
    pose proof (byteZ_range (rand_byte env 4)).
    unfold downloadAttempts in *.
    do 6 (destruct k as [|k]; [simpl;
      rewrite ?backoff_small by (unfold downloadAttempts; lia);
      unfold second; simpl Z.of_nat;
      (split; [lia|split; [repeat constructor; lia|lia]])|]).
    lia. }
  destruct (Renter_Download_cases r st dk env nick dest)
    as [(r' & dk' & e & -> & _)|(f & p0 & d0 & dk0 & Hf & Hp0 & Hact & -> & -> & Hnew)].
  { apply (Hmain 0). unfold downloadAttempts. lia. }
  rewrite (Renter_Download_constructed _ _ _ _ _ _ _ _ _ Hf Hnew).
  set (d0 := mkDownload _ _ _ _ _ _ _ _) in *.
  destruct (passes downloadAttempts 0 env d0 (<[dest:=[]]> dk))
    as [[[d1 dk1] ev1] ok] eqn:Hrun.
  apply passes_attempts in Hrun as [_ (k & Hk & Hsl)].
  destruct ok; cbv beta iota zeta.
  - rewrite Hsl. by apply Hmain.
  - rewrite sleeps_app, Hsl. simpl sleeps. rewrite app_nil_r. by apply Hmain.
Qed.

(** X11. The filter of [newDownload] keeps exactly the active pieces, each
    as often as the file lists it and in the file's order. *)
Theorem activePieces_sublist `{Crypto} (ps : list filePiece) :
  activePieces ps = filter (λ p, Active p = true) ps ∧
  activePieces ps `sublist_of` ps ∧
  length (activePieces ps) ≤ length ps ∧
  (∀ p, p ∈ activePieces ps ↔ p ∈ ps ∧ Active p = true) ∧
  ((∀ p, p ∈ ps → Active p = true) → activePieces ps = ps).
Proof.
  rewrite activePieces_filter.
  split; [done|]. split; [apply sublist_filter|].
  split; [apply length_filter|].
  split.
  - intros p. rewrite list_elem_of_filter. tauto.
  - intros Hall. induction ps as [|p ps IH]; [done|].
    rewrite filter_cons, decide_True by (apply Hall; left).
    f_equal. apply IH. intros q Hq. apply Hall. by right.
Qed.

Lemma activePieces_sublist_witness :
  let ps := [ex_piece true 2 195; ex_piece true 1 7] in
  (∀ p, p ∈ ps → Active p = true) ∧ activePieces ps = ps.
Proof.
  intros ps.
  assert (∀ p, p ∈ ps → Active p = true) as Hall.
  { intros p Hp. apply elem_of_cons in Hp as [->|Hp]; [reflexivity|].
    apply list_elem_of_singleton in Hp as ->. reflexivity. }
  split; [exact Hall|].
  exact (proj2 (proj2 (proj2 (proj2 (activePieces_sublist ps)))) Hall).
Defined.

(** ** The queue and the handlers *)

Lemma DownloadQueue_reverse `{Crypto} (r : Renter) :
  Renter_DownloadQueue r = Some (Some <$> reverse (downloadQueue r)).
Proof.
  unfold Renter_DownloadQueue. rewrite DownloadQueue_rounds by done.
  rewrite Nat.sub_diag, app_nil_r, take_ge; [done|]. by rewrite length_reverse.
Qed.

Lemma Renter_Download_queue `{Crypto} (r : Renter) (st : list Download)
    (dk : Disk) (env : Env) (nick dest : string) :
  let '(r', st', _, _, _) := Renter_Download r st dk env nick dest in
  if constructs r dk env nick dest
  then downloadQueue r' = downloadQueue r ++ [length st] ∧
       length st' = S (length st)
  else downloadQueue r' = downloadQueue r ∧ st' = st.
Proof.
  unfold constructs.
  destruct (files r !! nick) as [f|] eqn:Hf;
    [|by rewrite Renter_Download_unknown].
  destruct (newDownload f dest env dk) as [dk0 [d0|e|]] eqn:Hnew; simpl.
  - rewrite (Renter_Download_constructed _ _ _ _ _ _ _ _ _ Hf Hnew).
    destruct (passes downloadAttempts 0 env d0 dk0) as [[[d1 dk1] ev1] ok].
    destruct ok; simpl; rewrite length_app; simpl; (split; [done|lia]).
  - by rewrite (Renter_Download_not_constructed _ _ _ _ _ _ _ _ _ Hf Hnew).
  - unfold Renter_Download. simpl. by rewrite Hf, Hnew.
Qed.



(** X13. If the pointers of the queue are distinct and all allocated in
    the store, they still are after a call of [Renter.Download]. *)
Theorem Download_keeps_queue_wf `{Crypto} (r : Renter) (st : list Download)
    (dk : Disk) (env : Env) (nick dest : string) :
  queue_wf r st →
  let '(r', st', _, _, _) := Renter_Download r st dk env nick dest in
  queue_wf r' st'.
Proof.
  intros [Hnd Hall].
  pose proof (Renter_Download_queue r st dk env nick dest) as Hq.
  destruct (Renter_Download r st dk env nick dest) as [[[[r' st'] dk'] ev] res].
  unfold queue_wf. destruct (constructs r dk env nick dest).
  - destruct Hq as [-> ->]. split.
    + apply NoDup_app. split; [done|]. split; [|apply NoDup_singleton].
      intros p Hp ->%list_elem_of_singleton.
      eapply Forall_forall in Hall; [|done]. lia.
    + apply Forall_app. split; [|by repeat constructor].
      eapply Forall_impl; [done|]. simpl. lia.
  - by destruct Hq as [-> ->].
Qed.

Lemma Download_keeps_queue_wf_witness :
  let '(r', st', _, _, _) :=
    Renter_Download (ex_renter [ex_piece true 2 7]) [] ∅ env_trickle
      "report.pdf"%string "out"%string in
  queue_wf (ex_renter [ex_piece true 2 7]) [] ∧ queue_wf r' st'.
Proof.
  assert (queue_wf (ex_renter [ex_piece true 2 7]) []) as Hwf
    by (split; constructor).
  pose proof (Download_keeps_queue_wf (ex_renter [ex_piece true 2 7]) [] ∅
    env_trickle "report.pdf"%string "out"%string Hwf) as HT.
  destruct (Renter_Download (ex_renter [ex_piece true 2 7]) [] ∅ env_trickle
      "report.pdf"%string "out"%string) as [[[[r' st'] dk'] ev] res].
  split; [exact Hwf|exact HT].
Defined.

(** The append loop of [renterDownloadqueueHandler]. *)
Lemma downloadSet_loop `{Crypto} (st : list Download) (ptrs : list nat)
    (ds : list Download) (acc : list DownloadInfo) :
  Forall2 (λ p d, st !! p = Some d) ptrs ds →
  foldl
    (λ acc dl,
       downloadSet ← acc;
       p ← dl;
       d ← st !! p;
       Some (downloadSet ++ [info d]))
    (Some acc) (Some <$> ptrs)
  = Some (acc ++ (info <$> ds)).
Proof.
  intros Hall. revert acc.
  induction Hall as [|p d ptrs ds Hp _ IH]; intros acc; simpl.
  - by rewrite app_nil_r.
  - rewrite Hp. simpl. rewrite IH. by rewrite <- app_assoc.
Qed.

(** X14. When every pointer of the queue is allocated, the download-queue
    handler does not panic and answers with one entry per queued session,
    the most recent first, each entry holding what the six accessors of
    that session return. *)
Theorem renterDownloadqueueHandler_lists `{Crypto} (r : Renter)
    (st : list Download) :
  Forall (λ p, p < length st) (downloadQueue r) →
  ∃ ds,
    Forall2 (λ p d, st !! p = Some d) (downloadQueue r) ds ∧
    renterDownloadqueueHandler r st
    = Some (writeJSON (info <$> reverse ds)) ∧
    ∀ i d, reverse ds !! i = Some d →
      (info <$> reverse ds) !! i
      = Some (mkInfo (startTime d) (complete d) (filesize d) (received d)
                (destination d) (nickname d)).
Proof.
  intros Hall.
  assert (∃ ds, Forall2 (λ p d, st !! p = Some d) (downloadQueue r) ds)
    as [ds Hds].
  { induction Hall as [|p ptrs Hp _ [ds IH]]; [by exists []|].
    destruct (lookup_lt_is_Some_2 _ _ Hp) as [d Hd].
    exists (d :: ds). by constructor. }
  exists ds. split; [done|]. split.
  - unfold renterDownloadqueueHandler. rewrite DownloadQueue_reverse. simpl.
    rewrite (downloadSet_loop st (reverse (downloadQueue r)) (reverse ds));
      [done|].
    by apply Forall2_reverse.
  - intros i d Hd. by rewrite list_lookup_fmap, Hd.
Qed.

Lemma renterDownloadqueueHandler_lists_witness :
  let r := mkRenter (H := sumCrypto) false ∅ [0; 1] in
  let st := [ex_session; finished ex_session] in
  Forall (λ p, p < length st) (downloadQueue r) ∧
  renterDownloadqueueHandler r st
  = Some (writeJSON [info (finished ex_session); info ex_session]).
Proof.
  intros r st.
  assert (Forall (λ p, p < length st) (downloadQueue r)) as Hall
    by (repeat constructor).
  split; [exact Hall|].
  destruct (renterDownloadqueueHandler_lists r st Hall) as (ds & Hds & Hrun & _).
  apply Forall2_cons_inv_l in Hds as (d0 & ds' & [= <-] & Hds & ->).
  apply Forall2_cons_inv_l in Hds as (d1 & ds'' & [= <-] & Hds & ->).
  apply Forall2_nil_inv_l in Hds as ->.
  exact Hrun.
Defined.

(** X15. The download handler calls [Renter.Download] with the form
    values "nickname" and "destination" (the empty string for a missing
    one). It answers with success exactly when that call returned nil,
    which is exactly when the call queued a session that is complete;
    otherwise it answers with status 500 and the error after the prefix
    "Download failed: ". It does not panic. *)
Theorem renterFilesDownloadHandler_answers `{Crypto} (r : Renter)
    (st : list Download) (dk : Disk) (env : Env) (req : gmap string string) :
  let nick := default ""%string (req !! "nickname"%string) in
  let dest := default ""%string (req !! "destination"%string) in
  let '(r', st', dk', ev, resp) := renterFilesDownloadHandler r st dk env req in
  (r', st', dk', ev) = (Renter_Download r st dk env nick dest).1 ∧
  match (Renter_Download r st dk env nick dest).2 with
  | Returned None =>
      resp = Some writeSuccess ∧
      ∃ d, st' !! length st = Some d ∧ Download_Complete d = true
  | Returned (Some err) =>
      resp = Some (writeError ("Download failed: " +:+ err) 500) ∧
      ∀ d, st' !! length st = Some d → Download_Complete d = false
  | Panicked => False
  end.
Proof.
  cbv zeta. unfold renterFilesDownloadHandler, FormValue.
  set (nick := default ""%string (req !! "nickname"%string)).
  set (dest := default ""%string (req !! "destination"%string)).
  destruct (Renter_Download_cases r st dk env nick dest)
    as [(r' & dk' & e & -> & _)|(f & p0 & d0 & dk0 & Hf & Hp0 & Hact & -> & -> & Hnew)].
  { simpl. split; [done|]. split; [done|].
    intros d Hd. apply lookup_lt_Some in Hd. lia. }
  rewrite (Renter_Download_constructed _ _ _ _ _ _ _ _ _ Hf Hnew).
  set (d0 := mkDownload _ _ _ _ _ _ _ _) in *.
  destruct (pieces_bounded (pieces d0)) as [hi Hhi].
  destruct (passes downloadAttempts 0 env d0 (<[dest:=[]]> dk))
    as [[[d1 dk1] ev1] ok] eqn:Hrun.
  apply (passes_spec env hi) in Hrun as (_ & _ & _ & Hok); [|done..].
  destruct ok; simpl.
  - split; [done|]. split; [done|]. exists d1.
    split; [by apply list_lookup_middle|]. apply Hok.
  - split; [done|]. split; [done|]. intros d Hd.
    rewrite list_lookup_middle in Hd by done. injection Hd as <-.
    unfold Download_Complete. simpl. apply Hok.
Qed.

Lemma downloadPiece_within_declared_size_witness :
  let piece := ex_piece true 1 7 in
  let '(d', dk', _, _) := downloadPiece ex_session ex_disk piece host_serves in
  "notes.txt"%string ≠ f_name (d_file ex_session) ∧
  dk' !! "notes.txt"%string = None ∧
  f_pos (d_file d') ≤ 1.
Proof.
  intros piece.
  pose proof (downloadPiece_within_declared_size ex_session ex_disk piece
    host_serves) as HT.
  destruct (downloadPiece ex_session ex_disk piece host_serves)
    as [[[d' dk'] ev] err].
  destruct HT as (_ & Hpos & _ & _ & Hdk).
  assert ("notes.txt"%string ≠ f_name (d_file ex_session)) as Hne
    by discriminate.
  split; [exact Hne|]. split; [by rewrite (Hdk _ Hne)|exact Hpos].
Defined.

Lemma renterFilesDownloadHandler_answers_witness :
  (renterFilesDownloadHandler (ex_renter [ex_piece true 2 7]) [] ∅
     env_trickle ∅).2
  = Some (writeError "Download failed: no file of that nickname"%string 500).
Proof.
  pose proof (renterFilesDownloadHandler_answers (ex_renter [ex_piece true 2 7])
    [] ∅ env_trickle ∅) as HT.
  destruct (renterFilesDownloadHandler (ex_renter [ex_piece true 2 7]) [] ∅
     env_trickle ∅) as [[[[r' st'] dk'] ev] resp].
  cbv zeta in HT. destruct HT as [_ HT].
  change ((Renter_Download (ex_renter [ex_piece true 2 7]) [] ∅ env_trickle
             (default ""%string ((∅ : gmap string string) !! "nickname"%string))
             (default ""%string ((∅ : gmap string string) !! "destination"%string))).2)
    with (Returned (Some "no file of that nickname"%string)) in HT.
  exact (proj1 HT).
Defined.
